(** * Level-set mesher (sdf.h): shallow embedding and verified properties

    The development follows the layout of [sdf.h]: the integer helpers and
    case tables, the Morton codec, the [GridVert] record, the open-addressed
    hash table [HashTableD], the vertex pass [ComputeVerts], the triangle pass
    [BuildTris] and the sizing arithmetic of the driver [LevelSet].

    Machine integers are [Z] with their wrap-around written out; 32-bit floats
    are [spec_float] at precision 24 and maximal exponent 128. *)

From Stdlib Require Import ZArith List Lia Bool Znumtheory Wf_nat Wf_Z QArith Qround.
From Stdlib Require Import Floats.SpecFloat.
Import ListNotations.
Local Open Scope Z_scope.

(** ** Machine integers *)

Module Int.

(** [unsigned long long]: arithmetic modulo 2^64. *)
Definition u64 (z : Z) : Z := z mod 2 ^ 64.

(** [uint32_t]: arithmetic modulo 2^32. *)
Definition u32 (z : Z) : Z := z mod 2 ^ 32.

(** [int]: two's complement on 32 bits. *)
Definition i32 (z : Z) : Z := (z + 2 ^ 31) mod 2 ^ 32 - 2 ^ 31.

Definition INT_MAX : Z := 2 ^ 31 - 1.

(** [v << n] on [Uint64]. *)
Definition shl64 (v n : Z) : Z := u64 (Z.shiftl v n).

(** [v >> n] on [Uint64]. *)
Definition shr64 (v n : Z) : Z := Z.shiftr v n.

End Int.

(** ** Small integer vectors ([glm::ivec3], [glm::ivec4]) *)

Record ivec3 := IVec3 { x3 : Z; y3 : Z; z3 : Z }.
Record ivec4 := IVec4 { x4 : Z; y4 : Z; z4 : Z; w4 : Z }.

(** [v[i]] for [i] in 0..2 (resp. 0..3). *)
Definition get3 (v : ivec3) (i : Z) : Z :=
  match i with 0 => x3 v | 1 => y3 v | _ => z3 v end.

Definition get4 (v : ivec4) (i : Z) : Z :=
  match i with 0 => x4 v | 1 => y4 v | 2 => z4 v | _ => w4 v end.

Definition set4 (v : ivec4) (i : Z) (a : Z) : ivec4 :=
  match i with
  | 0 => IVec4 a (y4 v) (z4 v) (w4 v)
  | 1 => IVec4 (x4 v) a (z4 v) (w4 v)
  | 2 => IVec4 (x4 v) (y4 v) a (w4 v)
  | _ => IVec4 (x4 v) (y4 v) (z4 v) a
  end.

(** [glm::ivec3(v)] for an [ivec4]: drops [w]. *)
Definition xyz (v : ivec4) : ivec3 := IVec3 (x4 v) (y4 v) (z4 v).

(** Componentwise [int] addition. *)
Definition add4 (a b : ivec4) : ivec4 :=
  IVec4 (Int.i32 (x4 a + x4 b)) (Int.i32 (y4 a + y4 b))
        (Int.i32 (z4 a + z4 b)) (Int.i32 (w4 a + w4 b)).

(** [v += 1] on an [ivec4]: adds the scalar to every component. *)
Definition add4s (a : ivec4) (s : Z) : ivec4 :=
  IVec4 (Int.i32 (x4 a + s)) (Int.i32 (y4 a + s))
        (Int.i32 (z4 a + s)) (Int.i32 (w4 a + s)).

Definition add3s (a : ivec3) (s : Z) : ivec3 :=
  IVec3 (Int.i32 (x3 a + s)) (Int.i32 (y3 a + s)) (Int.i32 (z3 a + s)).

(** [glm::any(glm::lessThanEqual(a, b))] and friends. *)
Definition any_le3 (a b : ivec3) : bool :=
  (x3 a <=? x3 b) || (y3 a <=? y3 b) || (z3 a <=? z3 b).
Definition any_ge3 (a b : ivec3) : bool :=
  (x3 a >=? x3 b) || (y3 a >=? y3 b) || (z3 a >=? z3 b).
Definition any_gt3 (a b : ivec3) : bool :=
  (x3 a >? x3 b) || (y3 a >? y3 b) || (z3 a >? z3 b).

(** ** Index helpers and case tables *)

Definition Next3 (i : Z) : Z := get3 (IVec3 1 2 0) i.
Definition Prev3 (i : Z) : Z := get3 (IVec3 2 0 1) i.

Definition no_tri : ivec3 := IVec3 (-1) (-1) (-1).

Definition tetTri0 : list ivec3 :=
  [ IVec3 (-1) (-1) (-1); IVec3 0 3 4; IVec3 0 1 5; IVec3 1 5 3;
    IVec3 1 4 2; IVec3 1 0 3; IVec3 2 5 0; IVec3 5 3 2;
    IVec3 2 3 5; IVec3 0 5 2; IVec3 3 0 1; IVec3 2 4 1;
    IVec3 3 5 1; IVec3 5 1 0; IVec3 4 3 0; IVec3 (-1) (-1) (-1) ].

Definition tetTri1 : list ivec3 :=
  [ IVec3 (-1) (-1) (-1); IVec3 (-1) (-1) (-1); IVec3 (-1) (-1) (-1); IVec3 3 4 1;
    IVec3 (-1) (-1) (-1); IVec3 3 2 1; IVec3 0 4 2; IVec3 (-1) (-1) (-1);
    IVec3 (-1) (-1) (-1); IVec3 2 4 0; IVec3 1 2 3; IVec3 (-1) (-1) (-1);
    IVec3 1 4 3; IVec3 (-1) (-1) (-1); IVec3 (-1) (-1) (-1); IVec3 (-1) (-1) (-1) ].

Definition TetTri0 (i : Z) : ivec3 := nth (Z.to_nat i) tetTri0 no_tri.
Definition TetTri1 (i : Z) : ivec3 := nth (Z.to_nat i) tetTri1 no_tri.

Definition neighbors : list ivec4 :=
  [ IVec4 0 0 0 1; IVec4 1 0 0 0; IVec4 0 1 0 0; IVec4 0 0 1 0;
    IVec4 (-1) 0 0 1; IVec4 0 (-1) 0 1; IVec4 0 0 (-1) 1 ].

Definition Neighbors (i : Z) : ivec4 := nth (Z.to_nat i) neighbors (IVec4 0 0 0 0).

(** ** Morton codec *)

Definition SpreadBits3 (v : Z) : Z :=
  let v := Z.land v 0x1fffff in
  let v := Z.land (Z.lor v (Int.shl64 v 32)) 0x1f00000000ffff in
  let v := Z.land (Z.lor v (Int.shl64 v 16)) 0x1f0000ff0000ff in
  let v := Z.land (Z.lor v (Int.shl64 v 8)) 0x100f00f00f00f00f in
  let v := Z.land (Z.lor v (Int.shl64 v 4)) 0x10c30c30c30c30c3 in
  let v := Z.land (Z.lor v (Int.shl64 v 2)) 0x1249249249249249 in
  v.

Definition SqueezeBits3 (v : Z) : Z :=
  let v := Z.land v 0x1249249249249249 in
  let v := Z.land (Z.lxor v (Int.shr64 v 2)) 0x10c30c30c30c30c3 in
  let v := Z.land (Z.lxor v (Int.shr64 v 4)) 0x100f00f00f00f00f in
  let v := Z.land (Z.lxor v (Int.shr64 v 8)) 0x1f0000ff0000ff in
  let v := Z.land (Z.lxor v (Int.shr64 v 16)) 0x1f00000000ffff in
  let v := Z.land (Z.lxor v (Int.shr64 v 32)) 0x1fffff in
  v.

(** The [int] components are converted to [Uint64] at the calls. *)
Definition MortonCode (index : ivec4) : Z :=
  Z.lor (Z.lor (Z.lor (Int.u64 (w4 index))
                      (Int.shl64 (SpreadBits3 (Int.u64 (x4 index))) 1))
               (Int.shl64 (SpreadBits3 (Int.u64 (y4 index))) 2))
        (Int.shl64 (SpreadBits3 (Int.u64 (z4 index))) 3).

(** The [Uint64] results are converted back to [int] by the assignments. *)
Definition DecodeMorton (code : Z) : ivec4 :=
  IVec4 (Int.i32 (SqueezeBits3 (Int.shr64 code 1)))
        (Int.i32 (SqueezeBits3 (Int.shr64 code 2)))
        (Int.i32 (SqueezeBits3 (Int.shr64 code 3)))
        (Int.i32 (Z.land code 1)).

(** ** 32-bit floats ([float]) and [glm::vec3] *)

Module F32.

Definition prec : Z := 24.
Definition emax : Z := 128.

Definition float : Type := spec_float.

Definition zero : float := S754_zero false.
Definition nan : float := S754_nan.

(** Conversion of an [int] to [float] (round to nearest even). *)
Definition of_int (z : Z) : float := binary_normalize prec emax z 0 false.

(** The literal [-0.5f]. *)
Definition neg_half : float := Eval vm_compute in binary_normalize prec emax (-1) (-1) false.

Definition add : float -> float -> float := SFadd prec emax.
Definition sub : float -> float -> float := SFsub prec emax.
Definition mul : float -> float -> float := SFmul prec emax.
Definition div : float -> float -> float := SFdiv prec emax.

Definition ltb : float -> float -> bool := SFltb.
(** [a > b] *)
Definition gtb (a b : float) : bool := SFltb b a.

(** [glm::min(x, y)] is [(y < x) ? y : x]. *)
Definition min (x y : float) : float := if ltb y x then y else x.
(** [std::max(a, b)] is [(a < b) ? b : a]. *)
Definition max (a b : float) : float := if ltb a b then b else a.

(** Conversion of a [float] to [int]: truncation toward zero; the
    conversion is undefined ([None]) for NaN, infinities and values whose
    truncation does not fit an [int]. *)
Definition to_int (f : float) : option Z :=
  match f with
  | S754_zero _ => Some 0
  | S754_finite s m e =>
      let a := if 0 <=? e then Z.shiftl (Zpos m) e else Z.shiftr (Zpos m) (- e) in
      let t := if s then - a else a in
      if (- 2 ^ 31 <=? t) && (t <? 2 ^ 31) then Some t else None
  | _ => None
  end.

End F32.

Record vec3 := Vec3 { fx : F32.float; fy : F32.float; fz : F32.float }.

Module V3.
Definition map2 (f : F32.float -> F32.float -> F32.float) (a b : vec3) : vec3 :=
  Vec3 (f (fx a) (fx b)) (f (fy a) (fy b)) (f (fz a) (fz b)).
Definition maps (f : F32.float -> F32.float -> F32.float) (a : vec3) (s : F32.float) : vec3 :=
  Vec3 (f (fx a) s) (f (fy a) s) (f (fz a) s).

Definition add := map2 F32.add.
Definition sub := map2 F32.sub.
Definition mul := map2 F32.mul.
Definition div := map2 F32.div.
(** vector (op) scalar *)
Definition adds := maps F32.add.
Definition divs := maps F32.div.
(** scalar * vector *)
Definition scale (s : F32.float) (a : vec3) : vec3 :=
  Vec3 (F32.mul s (fx a)) (F32.mul s (fy a)) (F32.mul s (fz a)).

(** [glm::vec3(v)] for integer vectors. *)
Definition of_ivec3 (v : ivec3) : vec3 :=
  Vec3 (F32.of_int (x3 v)) (F32.of_int (y3 v)) (F32.of_int (z3 v)).
Definition of_ivec4 (v : ivec4) : vec3 := of_ivec3 (xyz v).

(** [glm::ivec3(v)] for a float vector. *)
Definition to_ivec3 (v : vec3) : option ivec3 :=
  match F32.to_int (fx v), F32.to_int (fy v), F32.to_int (fz v) with
  | Some a, Some b, Some c => Some (IVec3 a b c)
  | _, _, _ => None
  end.
End V3.

(** ** Executions: state passing with faults

    A computation threads a state and either returns a value or stops with a
    fault; the state reached so far is kept in both cases.  [OutOfBounds] is
    an access outside a buffer (undefined behaviour in the source),
    [OutOfFuel] an unbounded loop cut off by the fuel of the model. *)

Inductive fault := OutOfBounds | OutOfFuel.

Inductive result (A : Type) :=
| Ok (a : A)
| Fault (e : fault).
Arguments Ok {A} a.
Arguments Fault {A} e.

Definition M (S A : Type) : Type := S -> S * result A.

Definition ret {S A} (a : A) : M S A := fun s => (s, Ok a).
Definition fail {S A} (e : fault) : M S A := fun s => (s, Fault e).
Definition bind {S A B} (m : M S A) (k : A -> M S B) : M S B :=
  fun s => match m s with
           | (s', Ok a) => k a s'
           | (s', Fault e) => (s', Fault e)
           end.
Definition get {S} : M S S := fun s => (s, Ok s).
Definition put {S} (s : S) : M S unit := fun _ => (s, Ok tt).
Definition modify {S} (f : S -> S) : M S unit := fun s => (f s, Ok tt).

Declare Scope exec_scope.
Delimit Scope exec_scope with exec.
Notation "x <- m ;; k" := (bind m (fun x => k))
  (at level 61, m at next level, right associativity) : exec_scope.
Notation "m ;;; k" := (bind m (fun _ => k))
  (at level 61, right associativity) : exec_scope.

(** Sequential [for] loop over a list of indices. *)
Fixpoint for_each {S I} (l : list I) (body : I -> M S unit) : M S unit :=
  match l with
  | [] => ret tt
  | i :: l' => bind (body i) (fun _ => for_each l' body)
  end.

(** Buffer accesses through a raw pointer. *)
Definition in_range {A} (l : list A) (i : Z) : bool :=
  (0 <=? i) && (i <? Z.of_nat (length l)).

Fixpoint list_set {A} (l : list A) (n : nat) (a : A) : list A :=
  match l, n with
  | [], _ => []
  | _ :: t, O => a :: t
  | h :: t, S n' => h :: list_set t n' a
  end.

Definition buf_read {A} (l : list A) (i : Z) : result A :=
  if in_range l i then
    match nth_error l (Z.to_nat i) with
    | Some a => Ok a
    | None => Fault OutOfBounds
    end
  else Fault OutOfBounds.

Definition buf_write {A} (l : list A) (i : Z) (a : A) : result (list A) :=
  if in_range l i then Ok (list_set l (Z.to_nat i) a) else Fault OutOfBounds.

(** Small fixed-size [int] arrays ([int edgeVerts[7]], [int edges[6]]):
    every index expression of the source stays inside the array. *)
Definition arr_get (l : list Z) (i : Z) : Z := nth (Z.to_nat i) l 0.
Definition arr_set (l : list Z) (i : Z) (a : Z) : list Z := list_set l (Z.to_nat i) a.

(** ** GridVert *)

Definition kOpen : Z := 2 ^ 64 - 1.

Record GridVert := mkGridVert {
  key : Z;
  distance : F32.float;
  edgeVerts : list Z
}.

(** [GridVert()] *)
Definition GridVert_default : GridVert :=
  mkGridVert kOpen F32.nan [-1; -1; -1; -1; -1; -1; -1].

Definition Inside (g : GridVert) : Z :=
  if F32.gtb (distance g) F32.zero then 1 else -1.

Definition NeighborInside (g : GridVert) (i : Z) : Z :=
  Inside g * (if arr_get (edgeVerts g) i <? 0 then 1 else -1).

(** ** HashTableD *)

Record HashTableD := mkHashTableD {
  step_ : Z;
  table_ : list GridVert;
  used_ : Z
}.

Module HT.

Definition Size (h : HashTableD) : Z := Z.of_nat (length (table_ h)).

(** [used_[0] * 2 > Size()]: the product is computed on [uint32_t] and
    [Size()] is converted to unsigned for the comparison. *)
Definition Full (h : HashTableD) : bool :=
  Int.u32 (used_ h * 2) >? Int.u32 (Size h).

(** [x & (Size() - 1)] *)
Definition mask (h : HashTableD) (x : Z) : Z :=
  Int.u32 (Z.land x (Int.u64 (Size h - 1))).

(** One iteration of the probing loop of [Insert] is one unit of fuel. *)
Fixpoint Insert_loop (fuel : nat) (vert : GridVert) (idx : Z)
  : M HashTableD unit :=
  match fuel with
  | O => fail OutOfFuel
  | S fuel' => fun h =>
      match buf_read (table_ h) idx with
      | Fault e => (h, Fault e)
      | Ok slot =>
          let found := key slot in
          if found =? kOpen then
            match buf_write (table_ h) idx vert with
            | Ok t' => (mkHashTableD (step_ h) t' (Int.u32 (used_ h + 1)), Ok tt)
            | Fault e => (h, Fault e)
            end
          else if found =? key vert then (h, Ok tt)
          else Insert_loop fuel' vert (mask h (Int.u32 (idx + step_ h))) h
      end
  end.

Definition Insert (fuel : nat) (vert : GridVert) : M HashTableD unit :=
  fun h => Insert_loop fuel vert (mask h (key vert)) h.

(** [operator[]] *)
Fixpoint lookup_loop (fuel : nat) (h : HashTableD) (k : Z) (idx : Z)
  : result GridVert :=
  match fuel with
  | O => Fault OutOfFuel
  | S fuel' =>
      match buf_read (table_ h) idx with
      | Fault e => Fault e
      | Ok found =>
          if (key found =? k) || (key found =? kOpen) then Ok found
          else lookup_loop fuel' h k (mask h (Int.u32 (idx + step_ h)))
      end
  end.

Definition lookup (fuel : nat) (h : HashTableD) (k : Z) : result GridVert :=
  lookup_loop fuel h k (mask h k).

Definition At (h : HashTableD) (idx : Z) : result GridVert :=
  buf_read (table_ h) idx.

(** [HashTable(size, step)]: [1 << (int)ceil(log2(size))] default slots
    (the shift is made on [int]) and a zero counter. *)
Definition create (size step : Z) : HashTableD :=
  mkHashTableD step
    (repeat GridVert_default
            (Z.to_nat (Int.i32 (Z.shiftl 1 (Z.log2_up size))))) 0.

End HT.

(** ** Vertex pass: [ComputeVerts] *)

Record VertState := mkVertState {
  vertPos : list vec3;
  vertIndex : Z;
  gridVerts : HashTableD
}.

(** Runs a hash-table operation on the table held by the pass. *)
Definition on_table {A} (m : M HashTableD A) : M VertState A :=
  fun s => match m (gridVerts s) with
           | (h', r) => (mkVertState (vertPos s) (vertIndex s) h', r)
           end.

(** [AtomicAdd(target, 1)] in a sequential execution: returns the old value. *)
Definition AtomicAdd_vertIndex : M VertState Z :=
  fun s => (mkVertState (vertPos s) (Int.i32 (vertIndex s + 1)) (gridVerts s),
            Ok (vertIndex s)).

Definition write_vertPos (idx : Z) (p : vec3) : M VertState unit :=
  fun s => match buf_write (vertPos s) idx p with
           | Ok b => (mkVertState b (vertIndex s) (gridVerts s), Ok tt)
           | Fault e => (s, Fault e)
           end.

Section ComputeVerts.

Variable sdf : vec3 -> F32.float.
Variable origin : vec3.
Variable gridSize : ivec3.
Variable spacing : vec3.
Variable level : F32.float.
(** Fuel given to each probing loop of the hash table. *)
Variable fuel : nat.

Definition Position (gridIndex : ivec4) : vec3 :=
  V3.add origin
    (V3.mul spacing
       (V3.adds (V3.of_ivec4 gridIndex)
                (if w4 gridIndex =? 1 then F32.zero else F32.neg_half))).

Definition onLowerBound (gridIndex : ivec4) : bool :=
  any_le3 (xyz gridIndex) (IVec3 0 0 0).
Definition onUpperBound (gridIndex : ivec4) : bool :=
  any_ge3 (xyz gridIndex) gridSize.
Definition onHalfBound (gridIndex : ivec4) : bool :=
  (w4 gridIndex =? 1) && any_ge3 (xyz gridIndex) (add3s gridSize (-1)).

Definition BoundedSDF (gridIndex : ivec4) : F32.float :=
  let d := F32.sub (sdf (Position gridIndex)) level in
  if onLowerBound gridIndex || onUpperBound gridIndex || onHalfBound gridIndex
  then F32.min d F32.zero
  else d.

(** [gridIndex + Neighbors(i)] followed by the rewriting of [w == 2]. *)
Definition neighbor_index (gridIndex : ivec4) (i : Z) : ivec4 :=
  let n := add4 gridIndex (Neighbors i) in
  if w4 n =? 2 then set4 (add4s n 1) 3 0 else n.

(** Body of the loop over the seven owned edges; the locals [gridVert] and
    [keep] are passed explicitly. *)
Definition edge_step (gridIndex : ivec4) (position : vec3) (i : Z)
           (loc : GridVert * bool) : M VertState (GridVert * bool) :=
  let (gridVert, keep) := loc in
  let neighborIndex := neighbor_index gridIndex i in
  let val := BoundedSDF neighborIndex in
  if Bool.eqb (F32.gtb val F32.zero) (F32.gtb (distance gridVert) F32.zero)
  then ret (gridVert, keep)
  else
    (idx <- AtomicAdd_vertIndex ;;
     write_vertPos idx
       (V3.divs (V3.sub (V3.scale val position)
                        (V3.scale (distance gridVert) (Position neighborIndex)))
                (F32.sub val (distance gridVert))) ;;;
     ret (mkGridVert (key gridVert) (distance gridVert)
                     (arr_set (edgeVerts gridVert) i idx), true))%exec.

Fixpoint edge_loop (gridIndex : ivec4) (position : vec3) (l : list Z)
         (loc : GridVert * bool) : M VertState (GridVert * bool) :=
  match l with
  | [] => ret loc
  | i :: l' =>
      bind (edge_step gridIndex position i loc)
           (fun loc' => edge_loop gridIndex position l' loc')
  end.

(** [ComputeVerts::operator()] *)
Definition ComputeVerts_op (mortonCode : Z) : M VertState unit :=
  fun s =>
    if HT.Full (gridVerts s) then (s, Ok tt)
    else
      let gridIndex := DecodeMorton mortonCode in
      if any_gt3 (xyz gridIndex) gridSize then (s, Ok tt)
      else
        let position := Position gridIndex in
        let gridVert :=
          mkGridVert mortonCode (BoundedSDF gridIndex)
                     (edgeVerts GridVert_default) in
        (loc <- edge_loop gridIndex position [0; 1; 2; 3; 4; 5; 6]
                          (gridVert, false) ;;
         if snd loc then on_table (HT.Insert fuel (fst loc)) else ret tt)%exec s.

End ComputeVerts.

(** ** Triangle pass: [BuildTris] *)

(** [calls] is a ghost log of the arguments [MortonCode] was invoked with. *)
Record TriState := mkTriState {
  triVerts : list ivec3;
  triIndex : Z;
  calls : list ivec4
}.

Definition AtomicAdd_triIndex : M TriState Z :=
  fun s => (mkTriState (triVerts s) (Int.i32 (triIndex s + 1)) (calls s),
            Ok (triIndex s)).

Definition write_triVerts (idx : Z) (t : ivec3) : M TriState unit :=
  fun s => match buf_write (triVerts s) idx t with
           | Ok b => (mkTriState b (triIndex s) (calls s), Ok tt)
           | Fault e => (s, Fault e)
           end.

(** A call [MortonCode(index)] made by the pass. *)
Definition call_MortonCode (index : ivec4) : M TriState Z :=
  fun s => (mkTriState (triVerts s) (triIndex s) (index :: calls s),
            Ok (MortonCode index)).

Definition pure_result {S A} (r : result A) : M S A := fun s => (s, r).

Definition CreateTri (tri : ivec3) (edges : list Z) : M TriState unit :=
  if get3 tri 0 <? 0 then ret tt
  else
    (idx <- AtomicAdd_triIndex ;;
     write_triVerts idx
       (IVec3 (arr_get edges (get3 tri 0)) (arr_get edges (get3 tri 1))
              (arr_get edges (get3 tri 2))))%exec.

Definition tet_mask (tet : ivec4) : Z :=
  (if get4 tet 0 >? 0 then 1 else 0) + (if get4 tet 1 >? 0 then 2 else 0) +
  (if get4 tet 2 >? 0 then 4 else 0) + (if get4 tet 3 >? 0 then 8 else 0).

Definition CreateTris (tet : ivec4) (edges : list Z) : M TriState unit :=
  let i := tet_mask tet in
  (CreateTri (TetTri0 i) edges ;;; CreateTri (TetTri1 i) edges)%exec.

Section BuildTris.

Variable table : HashTableD.
Variable fuel : nat.

(** [gridVerts[MortonCode(index)]] *)
Definition lookup_at (index : ivec4) : M TriState GridVert :=
  (c <- call_MortonCode index ;; pure_result (HT.lookup fuel table c))%exec.

(** The body-diagonal partner of [baseIndex]. *)
Definition lead_index (baseIndex : ivec4) : ivec4 :=
  if w4 baseIndex =? 0 then set4 baseIndex 3 1
  else set4 (add4s baseIndex 1) 3 0.

(** [leadIndex] with coordinate [Prev3(i)] decremented. *)
Definition dec_index (leadIndex : ivec4) (i : Z) : ivec4 :=
  set4 leadIndex (Prev3 i) (Int.i32 (get4 leadIndex (Prev3 i) - 1)).

(** [nextVert] of the first half of iteration [i]: the guarded lookup. *)
Definition guarded_lookup (leadIndex : ivec4) (i : Z) : M TriState GridVert :=
  let thisIndex := dec_index leadIndex i in
  if get4 thisIndex (Prev3 i) <? 0 then ret GridVert_default
  else lookup_at thisIndex.

(** One iteration of the loop over [i]; the locals [tet] and [thisVert]
    are passed explicitly. *)
Definition tet_step (base : GridVert) (baseIndex leadIndex : ivec4) (i : Z)
           (loc : ivec4 * GridVert) : M TriState (ivec4 * GridVert) :=
  let (tet, thisVert) := loc in
  (nextVert <- guarded_lookup leadIndex i ;;
   let tet := set4 tet 3 (NeighborInside base (Prev3 i + 4)) in
   let edges1 :=
     [ arr_get (edgeVerts base) 0;
       arr_get (edgeVerts base) (i + 1);
       arr_get (edgeVerts nextVert) (Next3 i + 4);
       arr_get (edgeVerts nextVert) (Prev3 i + 1);
       arr_get (edgeVerts thisVert) (i + 4);
       arr_get (edgeVerts base) (Prev3 i + 4) ] in
   let thisVert := nextVert in
   CreateTris tet edges1 ;;;
   let thisIndex :=
     set4 baseIndex (Next3 i) (Int.i32 (get4 baseIndex (Next3 i) + 1)) in
   nextVert <- lookup_at thisIndex ;;
   let tet := set4 tet 2 (get4 tet 3) in
   let tet := set4 tet 3 (NeighborInside base (Next3 i + 1)) in
   let edges2 :=
     [ arr_get (edgeVerts base) 0;
       arr_get edges1 5;
       arr_get (edgeVerts thisVert) (i + 4);
       arr_get (edgeVerts nextVert) (Next3 i + 4);
       arr_get edges1 3;
       arr_get (edgeVerts base) (Next3 i + 1) ] in
   let thisVert := nextVert in
   CreateTris tet edges2 ;;;
   let tet := set4 tet 2 (get4 tet 3) in
   ret (tet, thisVert))%exec.

Fixpoint tet_loop (base : GridVert) (baseIndex leadIndex : ivec4)
         (l : list Z) (loc : ivec4 * GridVert) : M TriState unit :=
  match l with
  | [] => ret tt
  | i :: l' =>
      bind (tet_step base baseIndex leadIndex i loc)
           (fun loc' => tet_loop base baseIndex leadIndex l' loc')
  end.

(** [BuildTris::operator()] *)
Definition BuildTris_op (idx : Z) : M TriState unit :=
  (base <- pure_result (HT.At table idx) ;;
   if key base =? kOpen then ret tt
   else
     let baseIndex := DecodeMorton (key base) in
     let leadIndex := lead_index baseIndex in
     let tet := IVec4 (NeighborInside base 0) (Inside base) (-2) (-2) in
     let thisIndex := set4 baseIndex 0 (Int.i32 (x4 baseIndex + 1)) in
     thisVert <- lookup_at thisIndex ;;
     let tet := set4 tet 2 (NeighborInside base 1) in
     tet_loop base baseIndex leadIndex [0; 1; 2] (tet, thisVert))%exec.

End BuildTris.

(** ** Driver: [LevelSet] *)

Record Mesh := mkMesh {
  mesh_vertPos : list vec3;
  mesh_triVerts : list ivec3
}.

(** [countAt(0)] taken [n] times. *)
Definition count_from (start : Z) (n : nat) : list Z :=
  map (fun k => start + Z.of_nat k) (seq 0 n).

(** [for_each_n(policy, countAt(0), n, body)], executed sequentially. *)
Definition for_each_n {S} (n : Z) (body : Z -> M S unit) : M S unit :=
  for_each (count_from 0 (Z.to_nat n)) body.

Definition vec3_zero : vec3 := Vec3 F32.zero F32.zero F32.zero.

Section LevelSet.

Variable sdf : vec3 -> F32.float.
(** [bounds.min] and [bounds.Size()]. *)
Variable bounds_min : vec3.
Variable dim : vec3.
Variable edgeLength : F32.float.
Variable level : F32.float.
(** The value of [static_cast<Uint64>(10 * glm::pow(maxMorton, 0.667))],
    computed by the math library. *)
Variable pow_estimate : Z -> Z.
(** Fuel of the probing loops and of the resize loop. *)
Variable fuel : nat.

(** [const glm::ivec3 gridSize(dim / edgeLength)] *)
Definition LevelSet_gridSize : option ivec3 :=
  V3.to_ivec3 (V3.divs dim edgeLength).

Definition LevelSet_spacing (gridSize : ivec3) : vec3 :=
  V3.div dim (V3.of_ivec3 gridSize).

Definition ivec4_of (v : ivec3) (w : Z) : ivec4 := IVec4 (x3 v) (y3 v) (z3 v) w.

Definition LevelSet_maxMorton (gridSize : ivec3) : Z :=
  MortonCode (ivec4_of (add3s gridSize 1) 1).

Definition LevelSet_tableSize (maxMorton : Z) : Z :=
  Int.i32 (Z.min (Int.u64 (2 * maxMorton)) (pow_estimate maxMorton)).

(** The state handed to one run of the vertex pass: a fresh table of
    [HashTable(tableSize)] and a vertex buffer of [7 * Size()] entries. *)
Definition fresh_VertState (tableSize : Z) : VertState :=
  let h := HT.create (Int.u32 tableSize) 127 in
  mkVertState (repeat vec3_zero (Z.to_nat (Int.i32 (HT.Size h * 7)))) 0 h.

Definition vertex_pass (gridSize : ivec3) (maxMorton : Z) : M VertState unit :=
  for_each_n (Int.u64 (maxMorton + 1))
    (ComputeVerts_op sdf bounds_min (add3s gridSize 1)
                     (LevelSet_spacing gridSize) level fuel).

(** [tableSize *= ratio] on an [int] with a [float] factor. *)
Definition scale_tableSize (tableSize : Z) (ratio : F32.float) : option Z :=
  F32.to_int (F32.mul (F32.of_int tableSize) ratio).

Definition resized_tableSize (gridSize : ivec3) (maxMorton tableSize : Z)
           (s : VertState) : option Z :=
  match buf_read (vertPos s) (vertIndex s - 1) with
  | Fault _ => None
  | Ok lastVert =>
      match V3.to_ivec3 (V3.div (V3.sub lastVert bounds_min)
                                (LevelSet_spacing gridSize)) with
      | None => None
      | Some c =>
          let lastMorton := MortonCode (ivec4_of c 1) in
          let ratio := F32.div (F32.of_int maxMorton) (F32.of_int lastMorton) in
          if F32.gtb ratio (F32.of_int 1000)
          then Some (Int.i32 (tableSize * 2))
          else scale_tableSize tableSize ratio
      end
  end.

(** The [while (1)] loop around the vertex pass; every iteration costs one
    unit of [tries]. *)
Fixpoint vertex_loop (tries : nat) (gridSize : ivec3) (maxMorton tableSize : Z)
  : result VertState :=
  match tries with
  | O => Fault OutOfFuel
  | S tries' =>
      match vertex_pass gridSize maxMorton (fresh_VertState tableSize) with
      | (_, Fault e) => Fault e
      | (s, Ok _) =>
          if HT.Full (gridVerts s) then
            match resized_tableSize gridSize maxMorton tableSize s with
            | Some n => vertex_loop tries' gridSize maxMorton n
            | None => Fault OutOfBounds
            end
          else Ok (mkVertState (firstn (Z.to_nat (vertIndex s)) (vertPos s))
                               (vertIndex s) (gridVerts s))
      end
  end.

Definition fresh_TriState (h : HashTableD) : TriState :=
  mkTriState (repeat no_tri (Z.to_nat (Int.i32 (used_ h * 12)))) 0 [].

Definition triangle_pass (h : HashTableD) : M TriState unit :=
  for_each_n (HT.Size h) (BuildTris_op h fuel).

Definition LevelSet : result Mesh :=
  match LevelSet_gridSize with
  | None => Fault OutOfBounds
  | Some gridSize =>
      let maxMorton := LevelSet_maxMorton gridSize in
      match vertex_loop fuel gridSize maxMorton (LevelSet_tableSize maxMorton) with
      | Fault e => Fault e
      | Ok vs =>
          let h := gridVerts vs in
          match triangle_pass h (fresh_TriState h) with
          | (_, Fault e) => Fault e
          | (ts, Ok _) =>
              Ok (mkMesh (vertPos vs)
                         (firstn (Z.to_nat (triIndex ts)) (triVerts ts)))
          end
      end
  end.

End LevelSet.

(** * Properties *)

(** ** Machine integers *)

Module IntFacts.
Import Int.

Lemma u64_range z : 0 <= u64 z < 2 ^ 64.
Proof. unfold u64. apply Z.mod_pos_bound. lia. Qed.

Lemma u64_small z : 0 <= z < 2 ^ 64 -> u64 z = z.
Proof. intros H. unfold u64. apply Z.mod_small. exact H. Qed.

Lemma u32_small z : 0 <= z < 2 ^ 32 -> u32 z = z.
Proof. intros H. unfold u32. apply Z.mod_small. exact H. Qed.

Lemma i32_small z : - 2 ^ 31 <= z < 2 ^ 31 -> i32 z = z.
Proof. intros H. unfold i32. rewrite Z.mod_small; lia. Qed.

Lemma i32_range z : - 2 ^ 31 <= i32 z < 2 ^ 31.
Proof.
  unfold i32. pose proof (Z.mod_pos_bound (z + 2 ^ 31) (2 ^ 32)). lia.
Qed.

End IntFacts.

(** ** Buffers *)

Section Buffers.
Context {A : Type}.
Implicit Types (l : list A) (a : A).

Lemma length_list_set l n a : length (list_set l n a) = length l.
Proof.
  revert n. induction l as [|h t IH]; intros [|n]; simpl; auto.
Qed.

Lemma nth_error_list_set_eq l n a :
  (n < length l)%nat -> nth_error (list_set l n a) n = Some a.
Proof.
  revert n. induction l as [|h t IH]; intros [|n] H; simpl in *; try lia; auto.
  apply IH. lia.
Qed.

Lemma nth_error_list_set_ne l n m a :
  n <> m -> nth_error (list_set l n a) m = nth_error l m.
Proof.
  revert n m. induction l as [|h t IH]; intros [|n] [|m] H; simpl; auto;
    try congruence.
Qed.

Lemma list_set_split l n a :
  (n < length l)%nat ->
  list_set l n a = firstn n l ++ a :: skipn (S n) l.
Proof.
  revert n. induction l as [|h t IH]; intros [|n] H; simpl in *; try lia; auto.
  f_equal. apply IH. lia.
Qed.

Lemma list_set_two l n a b :
  (S n < length l)%nat ->
  list_set (list_set l n a) (S n) b =
    firstn n l ++ [a; b] ++ skipn (n + 2) l.
Proof.
  revert n. induction l as [|h t IH]; intros n H; simpl in H; [lia|].
  destruct n as [|n].
  - destruct t as [|h2 t2]; simpl in *; [lia|reflexivity].
  - simpl. f_equal. apply IH. lia.
Qed.

Lemma in_range_iff l i :
  in_range l i = true <-> 0 <= i < Z.of_nat (length l).
Proof.
  unfold in_range. rewrite andb_true_iff, Z.leb_le, Z.ltb_lt. tauto.
Qed.

Lemma buf_write_ok l i a :
  0 <= i < Z.of_nat (length l) ->
  buf_write l i a = Ok (list_set l (Z.to_nat i) a).
Proof.
  intros H. unfold buf_write. apply in_range_iff in H. now rewrite H.
Qed.

Lemma buf_read_ok l i :
  0 <= i < Z.of_nat (length l) ->
  exists a, buf_read l i = Ok a /\ nth_error l (Z.to_nat i) = Some a.
Proof.
  intros H. unfold buf_read.
  destruct (nth_error l (Z.to_nat i)) as [a|] eqn:E.
  - exists a. apply in_range_iff in H. now rewrite H.
  - apply nth_error_None in E. lia.
Qed.

Lemma buf_read_inv l i a :
  buf_read l i = Ok a ->
  0 <= i < Z.of_nat (length l) /\ nth_error l (Z.to_nat i) = Some a.
Proof.
  unfold buf_read. destruct (in_range l i) eqn:E; [|discriminate].
  apply in_range_iff in E.
  destruct (nth_error l (Z.to_nat i)) eqn:F; [|discriminate].
  intros [= ->]. auto.
Qed.
End Buffers.

(** ** Case tables and [CreateTris] *)

(** Number of corners marked inside by a 4-bit mask. *)
Definition popcount4 (i : Z) : Z :=
  Z.b2z (Z.testbit i 0) + Z.b2z (Z.testbit i 1) +
  Z.b2z (Z.testbit i 2) + Z.b2z (Z.testbit i 3).

(** An entry of a case table is a triangle when its first index is not
    negative (the test made by [CreateTri]). *)
Definition is_tri (t : ivec3) : bool := negb (get3 t 0 <? 0).

Definition tri_of (edges : list Z) (t : ivec3) : ivec3 :=
  IVec3 (arr_get edges (get3 t 0)) (arr_get edges (get3 t 1))
        (arr_get edges (get3 t 2)).

(** The triangles of case [i], in emission order. *)
Definition case_tris (i : Z) (edges : list Z) : list ivec3 :=
  map (tri_of edges) (filter is_tri [TetTri0 i; TetTri1 i]).

Definition case_count (i : Z) : Z :=
  if (i =? 0) || (i =? 15) then 0 else if popcount4 i =? 2 then 2 else 1.

Lemma tet_mask_range tet : 0 <= tet_mask tet < 16.
Proof.
  unfold tet_mask.
  destruct (get4 tet 0 >? 0), (get4 tet 1 >? 0), (get4 tet 2 >? 0),
    (get4 tet 3 >? 0); lia.
Qed.

Lemma mask_cases i :
  0 <= i < 16 ->
  i = 0 \/ i = 1 \/ i = 2 \/ i = 3 \/ i = 4 \/ i = 5 \/ i = 6 \/ i = 7 \/
  i = 8 \/ i = 9 \/ i = 10 \/ i = 11 \/ i = 12 \/ i = 13 \/ i = 14 \/ i = 15.
Proof. lia. Qed.

Ltac each_mask i H :=
  let C := fresh in
  pose proof (mask_cases i H) as C;
  repeat (destruct C as [C|C]; [subst i|]); [..|subst i].

Lemma case_tris_length i edges :
  0 <= i < 16 -> Z.of_nat (length (case_tris i edges)) = case_count i.
Proof. intros H. each_mask i H; reflexivity. Qed.

Lemma CreateTri_skip tri edges s :
  is_tri tri = false -> CreateTri tri edges s = (s, Ok tt).
Proof.
  unfold is_tri, CreateTri. intros H. apply negb_false_iff in H. now rewrite H.
Qed.

Lemma CreateTri_emit tri edges s :
  is_tri tri = true ->
  0 <= triIndex s < Z.of_nat (length (triVerts s)) ->
  CreateTri tri edges s =
    (mkTriState (list_set (triVerts s) (Z.to_nat (triIndex s)) (tri_of edges tri))
                (Int.i32 (triIndex s + 1)) (calls s), Ok tt).
Proof.
  unfold is_tri, CreateTri. intros H R. apply negb_true_iff in H. rewrite H.
  unfold bind, AtomicAdd_triIndex, write_triVerts. simpl.
  now rewrite buf_write_ok.
Qed.

(** Writing the triangles [ts] at consecutive indices from [idx]. *)
Definition emit (ts : list ivec3) (s : TriState) : TriState :=
  let idx := Z.to_nat (triIndex s) in
  mkTriState (firstn idx (triVerts s) ++ ts ++ skipn (idx + length ts) (triVerts s))
             (triIndex s + Z.of_nat (length ts)) (calls s).

Lemma emit_nil s : emit [] s = s.
Proof.
  unfold emit. destruct s as [tv ti c]. simpl.
  rewrite Nat.add_0_r, firstn_skipn, Z.add_0_r. reflexivity.
Qed.

Lemma CreateTris_emit tet edges s :
  0 <= triIndex s ->
  triIndex s + 2 <= Z.of_nat (length (triVerts s)) <= Int.INT_MAX ->
  CreateTris tet edges s = (emit (case_tris (tet_mask tet) edges) s, Ok tt).
Proof.
  intros H0 H1. unfold CreateTris, case_tris, bind. cbv zeta.
  unfold Int.INT_MAX in H1.
  simpl filter.
  destruct (is_tri (TetTri0 (tet_mask tet))) eqn:T0;
    destruct (is_tri (TetTri1 (tet_mask tet))) eqn:T1.
  - rewrite CreateTri_emit by (auto; lia).
    rewrite CreateTri_emit; simpl; rewrite ?length_list_set, ?IntFacts.i32_small by lia; auto; try lia.
    unfold emit. simpl. f_equal.
    replace (Z.to_nat (triIndex s + 1)) with (S (Z.to_nat (triIndex s))) by lia.
    rewrite list_set_two by lia. f_equal. lia.
  - rewrite CreateTri_emit by (auto; lia).
    rewrite CreateTri_skip by auto.
    unfold emit. simpl. f_equal. rewrite IntFacts.i32_small by lia.
    f_equal. rewrite list_set_split by lia. do 3 f_equal. lia.
  - rewrite CreateTri_skip by auto. rewrite CreateTri_emit by (auto; lia).
    unfold emit. simpl. f_equal. rewrite IntFacts.i32_small by lia.
    f_equal. rewrite list_set_split by lia. do 3 f_equal. lia.
  - rewrite !CreateTri_skip by auto. now rewrite emit_nil.
Qed.

(** C10. For every corner mask [i] in [0, 16): [TetTri0 i] is the sentinel
    exactly for 0 and 15, [TetTri1 i] is a triangle exactly for the masks
    with two bits set (so it is the sentinel whenever [TetTri0 i] is), and
    [CreateTris] called on a tetrahedron of mask [i], with room for two
    triangles in the buffer, writes exactly [case_count i] triangles: none
    for 0 and 15, two for two-bit masks, one otherwise. *)
Theorem C10_case_tables_emit_count :
  (forall i, 0 <= i < 16 ->
     (TetTri0 i = no_tri <-> i = 0 \/ i = 15) /\
     (TetTri1 i <> no_tri <-> popcount4 i = 2) /\
     (TetTri0 i = no_tri -> TetTri1 i = no_tri) /\
     (is_tri (TetTri0 i) = false <-> TetTri0 i = no_tri) /\
     (is_tri (TetTri1 i) = false <-> TetTri1 i = no_tri)) /\
  (forall tet edges s,
     0 <= triIndex s ->
     triIndex s + 2 <= Z.of_nat (length (triVerts s)) <= Int.INT_MAX ->
     exists s',
       CreateTris tet edges s = (s', Ok tt) /\
       s' = emit (case_tris (tet_mask tet) edges) s /\
       triIndex s' = triIndex s + case_count (tet_mask tet) /\
       length (triVerts s') = length (triVerts s)).
Proof.
  split.
  - intros i H. each_mask i H; cbv [TetTri0 TetTri1 no_tri nth Z.to_nat Pos.to_nat
      Pos.iter_op Nat.add tetTri0 tetTri1 is_tri get3 x3 negb Z.ltb Z.compare];
      repeat split; intros; try reflexivity; try discriminate; try lia;
      try (exfalso; vm_compute in *; congruence); auto.
  - intros tet edges s H0 H1.
    eexists. split; [apply CreateTris_emit; assumption|].
    split; [reflexivity|].
    pose proof (tet_mask_range tet) as R.
    pose proof (case_tris_length (tet_mask tet) edges R) as L.
    split; [simpl; lia|].
    assert (B : 0 <= case_count (tet_mask tet) <= 2).
    { unfold case_count.
      destruct ((tet_mask tet =? 0) || (tet_mask tet =? 15)),
        (popcount4 (tet_mask tet) =? 2); lia. }
    simpl. rewrite !length_app, length_firstn, length_skipn. lia.
Qed.

Definition C10_state : TriState := mkTriState [no_tri; no_tri; no_tri] 0 [].

(** A tetrahedron with corners 0 and 1 inside writes two triangles. *)
Lemma C10_case_tables_emit_count_witness :
  exists s',
    CreateTris (IVec4 1 1 (-1) (-1)) [10; 11; 12; 13; 14; 15] C10_state = (s', Ok tt) /\
    s' = emit (case_tris 3 [10; 11; 12; 13; 14; 15]) C10_state /\
    triIndex s' = 2 /\
    length (triVerts s') = 3%nat.
Proof.
  apply (proj2 C10_case_tables_emit_count (IVec4 1 1 (-1) (-1))
           [10; 11; 12; 13; 14; 15] C10_state).
  - simpl. lia.
  - unfold Int.INT_MAX. simpl. lia.
Defined.

(** ** Morton codec *)

Lemma testbit_u64_low a n : 0 <= n < 64 -> Z.testbit (Int.u64 a) n = Z.testbit a n.
Proof. intros H. unfold Int.u64. apply Z.mod_pow2_bits_low. lia. Qed.

Lemma testbit_u64_high a n : 64 <= n -> Z.testbit (Int.u64 a) n = false.
Proof. intros H. unfold Int.u64. apply Z.mod_pow2_bits_high. lia. Qed.

Lemma testbit_shl64 a k n :
  0 <= n < 64 -> Z.testbit (Int.shl64 a k) n = Z.testbit a (n - k).
Proof.
  intros H. unfold Int.shl64. rewrite testbit_u64_low by lia.
  apply Z.shiftl_spec. lia.
Qed.

Lemma testbit_shr64 a k n :
  0 <= n -> Z.testbit (Int.shr64 a k) n = Z.testbit a (n + k).
Proof. intros H. unfold Int.shr64. apply Z.shiftr_spec. lia. Qed.

Lemma bit_cases n :
  0 <= n < 64 ->
  exists k, (k < 64)%nat /\ n = Z.of_nat k.
Proof. intros H. exists (Z.to_nat n). lia. Qed.

(** Bit blasting at a literal index: masks are evaluated as soon as they are
    met, so that masked-out subterms are dropped without being expanded. *)
Ltac bits_step :=
  match goal with
  | |- context [Z.testbit ?a (Zneg ?p)] =>
      rewrite (Z.testbit_neg_r a (Zneg p)) by lia
  | |- context [Z.testbit ?a (?n - ?k)] =>
      let r := eval vm_compute in (n - k) in change (n - k) with r
  | |- context [Z.testbit ?a (?n + ?k)] =>
      let r := eval vm_compute in (n + k) in change (n + k) with r
  | |- context [Z.testbit (Z.land ?a (Zpos ?p)) ?n] =>
      rewrite (Z.land_spec a (Zpos p) n);
      let r := eval vm_compute in (Z.testbit (Zpos p) n) in
      change (Z.testbit (Zpos p) n) with r
  | |- context [Z.testbit (Z.lor ?a ?b) ?n] => rewrite (Z.lor_spec a b n)
  | |- context [Z.testbit (Z.lxor ?a ?b) ?n] => rewrite (Z.lxor_spec a b n)
  | |- context [Z.testbit (Int.shl64 ?a ?k) ?n] =>
      rewrite (testbit_shl64 a k n) by lia
  | |- context [Z.testbit (Int.shr64 ?a ?k) ?n] =>
      rewrite (testbit_shr64 a k n) by lia
  end;
  rewrite ?andb_false_r, ?andb_true_r, ?orb_false_r, ?orb_false_l,
    ?xorb_false_r, ?xorb_false_l.

Ltac bits := repeat bits_step.

Ltac each_bit k :=
  do 64 (destruct k as [|k]; [simpl Z.of_nat|]); [..|lia].

Lemma SpreadBits3_bit v j :
  0 <= j < 21 -> Z.testbit (SpreadBits3 v) (3 * j) = Z.testbit v j.
Proof.
  intros H.
  destruct (bit_cases j ltac:(lia)) as (k & Hk & ->).
  do 21 (destruct k as [|k];
         [simpl Z.of_nat; simpl Z.mul; unfold SpreadBits3; cbv zeta; bits; reflexivity|]).
  lia.
Qed.

Lemma testbit_const_high c n :
  0 <= c < 2 ^ 64 -> 64 <= n -> Z.testbit c n = false.
Proof.
  intros Hc Hn. rewrite <- (Z.mod_small c (2 ^ 64)) by lia.
  apply Z.mod_pow2_bits_high. lia.
Qed.

Lemma SpreadBits3_gap v n :
  0 <= n -> n mod 3 <> 0 \/ 63 <= n -> Z.testbit (SpreadBits3 v) n = false.
Proof.
  intros H0 H.
  destruct (Z_lt_le_dec n 64) as [L|L].
  - destruct (bit_cases n ltac:(lia)) as (k & Hk & ->).
    do 64 (destruct k as [|k];
           [simpl Z.of_nat in *;
            first [ exfalso; destruct H as [H|H]; [apply H; reflexivity|lia]
                  | unfold SpreadBits3; cbv zeta; bits; reflexivity ] |]).
    lia.
  - unfold SpreadBits3. cbv zeta. rewrite Z.land_spec.
    rewrite (testbit_const_high 0x1249249249249249) by lia.
    apply andb_false_r.
Qed.

Lemma SqueezeBits3_bit c j :
  0 <= j < 21 -> Z.testbit (SqueezeBits3 c) j = Z.testbit c (3 * j).
Proof.
  intros H.
  destruct (bit_cases j ltac:(lia)) as (k & Hk & ->).
  do 21 (destruct k as [|k];
         [simpl Z.of_nat; simpl Z.mul; unfold SqueezeBits3; cbv zeta; bits; reflexivity|]).
  lia.
Qed.

Lemma SqueezeBits3_high c n : 21 <= n -> Z.testbit (SqueezeBits3 c) n = false.
Proof.
  intros H. unfold SqueezeBits3. cbv zeta. rewrite Z.land_spec.
  replace (Z.testbit 0x1fffff n) with false; [apply andb_false_r|].
  symmetry. rewrite <- (Z.mod_small 0x1fffff (2 ^ 21)) by lia.
  apply Z.mod_pow2_bits_high. lia.
Qed.

Lemma SqueezeBits3_range c : 0 <= SqueezeBits3 c < 2 ^ 21.
Proof.
  unfold SqueezeBits3. cbv zeta.
  change 0x1fffff with (Z.ones 21). rewrite Z.land_ones by lia.
  apply Z.mod_pos_bound. lia.
Qed.

Lemma testbit_small_high a k n :
  0 <= a < 2 ^ k -> 0 <= k <= n -> Z.testbit a n = false.
Proof.
  intros Ha Hn. rewrite <- (Z.mod_small a (2 ^ k)) by lia.
  apply Z.mod_pow2_bits_high. lia.
Qed.

Lemma testbit_bit_high w n : 0 <= w <= 1 -> 1 <= n -> Z.testbit w n = false.
Proof. intros H Hn. apply (testbit_small_high w 1); lia. Qed.

Section MortonRoundTrip.
Variables x y z w : Z.
Hypothesis Hx : 0 <= x < 2 ^ 21.
Hypothesis Hy : 0 <= y < 2 ^ 21.
Hypothesis Hz : 0 <= z < 2 ^ 21.
Hypothesis Hw : 0 <= w <= 1.

Let code := MortonCode (IVec4 x y z w).

(** Bit [m] of the code, for [m] in 1..63, is bit [(m-1)/3] of the
    coordinate selected by [(m-1) mod 3]. *)
Lemma MortonCode_bit m :
  0 <= m < 64 ->
  Z.testbit code m =
    Z.testbit w m || Z.testbit (SpreadBits3 x) (m - 1)
    || Z.testbit (SpreadBits3 y) (m - 2) || Z.testbit (SpreadBits3 z) (m - 3).
Proof.
  intros H. unfold code, MortonCode. simpl.
  rewrite !Z.lor_spec, !testbit_shl64, testbit_u64_low by lia.
  rewrite !IntFacts.u64_small by lia. reflexivity.
Qed.

Lemma spread_off v n : n mod 3 <> 0 \/ n < 0 -> Z.testbit (SpreadBits3 v) n = false.
Proof.
  intros [H|H].
  - destruct (Z_lt_le_dec n 0); [apply Z.testbit_neg_r; lia|].
    apply SpreadBits3_gap; auto.
  - apply Z.testbit_neg_r; lia.
Qed.

Lemma decode_x : SqueezeBits3 (Int.shr64 code 1) = x.
Proof.
  apply Z.bits_inj'. intros n Hn.
  destruct (Z_lt_le_dec n 21) as [L|L].
  - rewrite SqueezeBits3_bit, testbit_shr64, MortonCode_bit by lia.
    rewrite testbit_bit_high by lia.
    replace (3 * n + 1 - 1) with (3 * n) by lia.
    rewrite SpreadBits3_bit by lia.
    rewrite !spread_off; [now rewrite !orb_false_r|left|left].
    + replace (3 * n + 1 - 3) with (1 + (n - 1) * 3) by lia.
      rewrite Z.mod_add by lia. discriminate.
    + replace (3 * n + 1 - 2) with (2 + (n - 1) * 3) by lia.
      rewrite Z.mod_add by lia. discriminate.
  - rewrite SqueezeBits3_high by lia. symmetry.
    apply (testbit_small_high x 21); lia.
Qed.

Lemma decode_y : SqueezeBits3 (Int.shr64 code 2) = y.
Proof.
  apply Z.bits_inj'. intros n Hn.
  destruct (Z_lt_le_dec n 21) as [L|L].
  - rewrite SqueezeBits3_bit, testbit_shr64, MortonCode_bit by lia.
    rewrite testbit_bit_high by lia.
    replace (3 * n + 2 - 2) with (3 * n) by lia.
    rewrite SpreadBits3_bit by lia.
    rewrite !spread_off; [now rewrite !orb_false_r|left|left].
    + replace (3 * n + 2 - 3) with (2 + (n - 1) * 3) by lia.
      rewrite Z.mod_add by lia. discriminate.
    + replace (3 * n + 2 - 1) with (1 + n * 3) by lia.
      rewrite Z.mod_add by lia. discriminate.
  - rewrite SqueezeBits3_high by lia. symmetry.
    apply (testbit_small_high y 21); lia.
Qed.

Lemma decode_z : SqueezeBits3 (Int.shr64 code 3) = z.
Proof.
  apply Z.bits_inj'. intros n Hn.
  destruct (Z_lt_le_dec n 21) as [L|L].
  - rewrite SqueezeBits3_bit, testbit_shr64, MortonCode_bit by lia.
    rewrite testbit_bit_high by lia.
    replace (3 * n + 3 - 3) with (3 * n) by lia.
    rewrite SpreadBits3_bit by lia.
    rewrite !spread_off; [reflexivity|left|left].
    + replace (3 * n + 3 - 2) with (1 + n * 3) by lia.
      rewrite Z.mod_add by lia. discriminate.
    + replace (3 * n + 3 - 1) with (2 + n * 3) by lia.
      rewrite Z.mod_add by lia. discriminate.
  - rewrite SqueezeBits3_high by lia. symmetry.
    apply (testbit_small_high z 21); lia.
Qed.

Lemma decode_w : Z.land code 1 = w.
Proof.
  apply Z.bits_inj'. intros n Hn. rewrite Z.land_spec.
  destruct (Z.eq_dec n 0) as [->|N].
  - rewrite MortonCode_bit by lia.
    rewrite !spread_off by (right; lia).
    change (Z.testbit 1 0) with true.
    now rewrite !orb_false_r, andb_true_r.
  - rewrite (testbit_bit_high 1), (testbit_bit_high w) by lia.
    apply andb_false_r.
Qed.

Lemma DecodeMorton_MortonCode_aux :
  DecodeMorton (MortonCode (IVec4 x y z w)) = IVec4 x y z w.
Proof.
  unfold DecodeMorton. fold code.
  rewrite decode_x, decode_y, decode_z, decode_w.
  rewrite !IntFacts.i32_small by lia. reflexivity.
Qed.
End MortonRoundTrip.

(** C2. Morton round trip: for every grid index whose coordinates lie in
    [0, 2^21) and whose [w] is 0 or 1, decoding the Morton code gives the
    index back. *)
Theorem C2_DecodeMorton_MortonCode (idx : ivec4) :
  0 <= x4 idx < 2 ^ 21 -> 0 <= y4 idx < 2 ^ 21 -> 0 <= z4 idx < 2 ^ 21 ->
  w4 idx = 0 \/ w4 idx = 1 ->
  DecodeMorton (MortonCode idx) = idx.
Proof.
  intros Hx Hy Hz Hw. destruct idx as [x y z w]. simpl in *.
  apply DecodeMorton_MortonCode_aux; lia.
Qed.

Lemma C2_DecodeMorton_MortonCode_witness :
  DecodeMorton (MortonCode (IVec4 5 2097151 9 1)) = IVec4 5 2097151 9 1.
Proof.
  apply (C2_DecodeMorton_MortonCode (IVec4 5 2097151 9 1)); simpl; lia.
Defined.

(** ** Bounded SDF *)

Lemma F32_min_zero_not_positive d : F32.gtb (F32.min d F32.zero) F32.zero = false.
Proof.
  unfold F32.min, F32.gtb, F32.ltb.
  destruct (SFltb F32.zero d) eqn:E; [reflexivity | exact E].
Qed.

(** C3. With [d = sdf(Position(idx)) - level]: [BoundedSDF idx] is
    [min(d, 0)] when some component of [idx.xyz] is [<= 0], or some component
    is [>=] the matching component of [gridSize], or [idx.w == 1] and some
    component is [>= gridSize - 1]; otherwise it is [d]. *)
Theorem C3_BoundedSDF_clamp
  (sdf : vec3 -> F32.float) (origin : vec3) (gridSize : ivec3)
  (spacing : vec3) (level : F32.float) (idx : ivec4) :
  - 2 ^ 31 < x3 gridSize < 2 ^ 31 ->
  - 2 ^ 31 < y3 gridSize < 2 ^ 31 ->
  - 2 ^ 31 < z3 gridSize < 2 ^ 31 ->
  let d := F32.sub (sdf (Position origin spacing idx)) level in
  let on_frontier :=
    (x4 idx <= 0 \/ y4 idx <= 0 \/ z4 idx <= 0) \/
    (x4 idx >= x3 gridSize \/ y4 idx >= y3 gridSize \/ z4 idx >= z3 gridSize) \/
    (w4 idx = 1 /\
     (x4 idx >= x3 gridSize - 1 \/ y4 idx >= y3 gridSize - 1 \/
      z4 idx >= z3 gridSize - 1)) in
  (on_frontier ->
   BoundedSDF sdf origin gridSize spacing level idx = F32.min d F32.zero) /\
  (~ on_frontier -> BoundedSDF sdf origin gridSize spacing level idx = d).
Proof.
  intros Gx Gy Gz d on_frontier.
  unfold BoundedSDF. fold d.
  assert (E : onLowerBound idx || onUpperBound gridSize idx
              || onHalfBound gridSize idx = true <-> on_frontier).
  { unfold on_frontier, onLowerBound, onUpperBound, onHalfBound,
      any_le3, any_ge3, add3s, xyz. simpl.
    rewrite !IntFacts.i32_small by lia.
    rewrite !orb_true_iff, andb_true_iff, !orb_true_iff.
    rewrite !Z.leb_le, !Z.geb_le, Z.eqb_eq. lia. }
  split; intros H.
  - apply E in H. now rewrite H.
  - destruct (onLowerBound idx || onUpperBound gridSize idx
              || onHalfBound gridSize idx); [|reflexivity].
    exfalso. apply H, E. reflexivity.
Qed.

Definition fl (m e : Z) : F32.float := binary_normalize F32.prec F32.emax m e false.
Definition v3 (a : F32.float) : vec3 := Vec3 a a a.

Definition C3_sdf (p : vec3) : F32.float := fx p.

(** On a 4x4x4 grid of unit spacing, with the SDF [x]: the corner vertex
    (1,2,2) is interior and keeps its value 0.5; the body-centred vertex
    (3,2,2) is on the half bound and is clamped to 0. *)
Lemma C3_BoundedSDF_clamp_witness :
  BoundedSDF C3_sdf (v3 F32.zero) (IVec3 4 4 4) (v3 (fl 1 0)) F32.zero
             (IVec4 1 2 2 0) = fl 1 (-1) /\
  BoundedSDF C3_sdf (v3 F32.zero) (IVec3 4 4 4) (v3 (fl 1 0)) F32.zero
             (IVec4 3 2 2 1) = F32.zero.
Proof.
  pose proof (C3_BoundedSDF_clamp C3_sdf (v3 F32.zero) (IVec3 4 4 4)
                (v3 (fl 1 0)) F32.zero (IVec4 1 2 2 0)
                ltac:(simpl; lia) ltac:(simpl; lia) ltac:(simpl; lia)) as [_ A].
  pose proof (C3_BoundedSDF_clamp C3_sdf (v3 F32.zero) (IVec3 4 4 4)
                (v3 (fl 1 0)) F32.zero (IVec4 3 2 2 1)
                ltac:(simpl; lia) ltac:(simpl; lia) ltac:(simpl; lia)) as [B _].
  split.
  - rewrite A; [reflexivity | simpl; lia].
  - rewrite B; [reflexivity | simpl; lia].
Defined.

(** ** Vertex pass: sign test of an owned edge *)

Lemma i32_succ_neq v : Int.i32 (v + 1) <> v.
Proof.
  unfold Int.i32. intros E.
  pose proof (Z.mod_pos_bound (v + 1 + 2 ^ 31) (2 ^ 32) ltac:(lia)) as B.
  assert (R : 0 <= v + 2 ^ 31 < 2 ^ 32) by lia.
  assert (M : (v + 1 + 2 ^ 31) mod 2 ^ 32 = v + 2 ^ 31) by lia.
  destruct (Z.eq_dec (v + 2 ^ 31) (2 ^ 32 - 1)) as [T|T].
  - replace (v + 1 + 2 ^ 31) with (2 ^ 32) in M by lia.
    rewrite Z.mod_same in M by lia. lia.
  - rewrite Z.mod_small in M by lia. lia.
Qed.

Section EdgeStep.
Variable sdf : vec3 -> F32.float.
Variables (origin : vec3) (gridSize : ivec3) (spacing : vec3) (level : F32.float).

Let bsdf := BoundedSDF sdf origin gridSize spacing level.
Let step := edge_step sdf origin gridSize spacing level.

(** The two sign classes of the pass: strictly positive, and everything
    else (negative values, both zeros and NaN). *)
Definition positive (v : F32.float) : bool := F32.gtb v F32.zero.

Lemma edge_step_same gridIndex position i gv keep s :
  positive (bsdf (neighbor_index gridIndex i)) = positive (distance gv) ->
  step gridIndex position i (gv, keep) s = (s, Ok (gv, keep)).
Proof.
  intros H. unfold step, edge_step. fold bsdf. unfold positive in H.
  rewrite H, eqb_reflx. reflexivity.
Qed.

Lemma edge_step_cross gridIndex position i gv keep s :
  positive (bsdf (neighbor_index gridIndex i)) <> positive (distance gv) ->
  vertIndex (fst (step gridIndex position i (gv, keep) s))
    = Int.i32 (vertIndex s + 1) /\
  (0 <= vertIndex s < Z.of_nat (length (vertPos s)) ->
   exists p,
     step gridIndex position i (gv, keep) s =
       (mkVertState (list_set (vertPos s) (Z.to_nat (vertIndex s)) p)
                    (Int.i32 (vertIndex s + 1)) (gridVerts s),
        Ok (mkGridVert (key gv) (distance gv)
                       (arr_set (edgeVerts gv) i (vertIndex s)), true))).
Proof.
  intros H. unfold step, edge_step. fold bsdf. unfold positive in H.
  apply eqb_false_iff in H. rewrite H.
  unfold bind, AtomicAdd_vertIndex, write_vertPos. cbn [vertPos vertIndex gridVerts].
  split.
  - destruct (buf_write _ _ _); reflexivity.
  - intros R. rewrite buf_write_ok by exact R. eexists. reflexivity.
Qed.
End EdgeStep.

(** C5 (amended). Owned edge [i] records no crossing -- the vertex counter
    and [edgeVerts[i]] are left as they are -- exactly when [val > 0] and
    [distance > 0] have the same truth value; a value of exactly zero is in
    the class of the negative values.  When the truth values differ, the
    counter advances by one and, the old counter being inside the vertex
    buffer, [edgeVerts[i]] receives the old counter. *)
Theorem C5_crossing_iff_positivity_differs
  (sdf : vec3 -> F32.float) (origin : vec3) (gridSize : ivec3)
  (spacing : vec3) (level : F32.float)
  (gridIndex : ivec4) (position : vec3) (i : Z) (gv : GridVert) (keep : bool)
  (s : VertState) :
  let val := BoundedSDF sdf origin gridSize spacing level (neighbor_index gridIndex i) in
  let r := edge_step sdf origin gridSize spacing level gridIndex position i (gv, keep) s in
  (vertIndex (fst r) = vertIndex s <-> positive val = positive (distance gv)) /\
  (positive val = positive (distance gv) -> r = (s, Ok (gv, keep))) /\
  (positive val <> positive (distance gv) ->
   0 <= vertIndex s < Z.of_nat (length (vertPos s)) ->
   vertIndex (fst r) = Int.i32 (vertIndex s + 1) /\
   snd r = Ok (mkGridVert (key gv) (distance gv)
                           (arr_set (edgeVerts gv) i (vertIndex s)), true)) /\
  positive F32.zero = false.
Proof.
  intros val r. subst val r.
  split; [|split; [|split]].
  - split.
    + intros E.
      destruct (bool_dec
        (positive (BoundedSDF sdf origin gridSize spacing level (neighbor_index gridIndex i)))
        (positive (distance gv))) as [D|D]; [exact D|exfalso].
      destruct (edge_step_cross sdf origin gridSize spacing level
                  gridIndex position i gv keep s D) as [A _].
      rewrite A in E. exact (i32_succ_neq _ E).
    + intros D. now rewrite edge_step_same.
  - apply edge_step_same.
  - intros D R.
    destruct (edge_step_cross sdf origin gridSize spacing level
                gridIndex position i gv keep s D) as [A B].
    split; [exact A|]. destruct (B R) as [p ->]. reflexivity.
  - reflexivity.
Qed.

(** A concrete grid: unit spacing from the origin, [gridSize] field 4, and an
    SDF that is 0 for [x < 1] and -1 elsewhere. *)
Definition C5_sdf (p : vec3) : F32.float :=
  if F32.ltb (fx p) (fl 1 0) then F32.zero else F32.of_int (-1).

Definition C5_state : VertState :=
  mkVertState (repeat vec3_zero 7) 0 (HT.create 1 127).

Definition C5_gridVert : GridVert :=
  mkGridVert (MortonCode (IVec4 1 1 1 0)) F32.zero (edgeVerts GridVert_default).

Definition C5_bsdf := BoundedSDF C5_sdf (v3 F32.zero) (IVec3 4 4 4) (v3 (fl 1 0)) F32.zero.

(** The sign of the claim as stated: a value of exactly zero has sign +. *)
Definition sign_zero_plus (v : F32.float) : bool := SFleb F32.zero v.

(** C5 (as stated) fails: the grid vertex (1,1,1,0) has value exactly 0, its
    +x neighbour (2,1,1,0) has the negative value -1, so their signs differ
    when zero counts as +; yet owned edge 1 records no crossing: no index is
    allocated, [edgeVerts[1]] stays -1, and the whole invocation leaves the
    state unchanged. *)
Lemma C5_zero_negative_no_crossing :
  C5_bsdf (IVec4 1 1 1 0) = F32.zero /\
  C5_bsdf (neighbor_index (IVec4 1 1 1 0) 1) = F32.of_int (-1) /\
  sign_zero_plus (C5_bsdf (IVec4 1 1 1 0))
    <> sign_zero_plus (C5_bsdf (neighbor_index (IVec4 1 1 1 0) 1)) /\
  edge_step C5_sdf (v3 F32.zero) (IVec3 4 4 4) (v3 (fl 1 0)) F32.zero
            (IVec4 1 1 1 0) (v3 (fl 1 (-1))) 1 (C5_gridVert, false) C5_state
    = (C5_state, Ok (C5_gridVert, false)) /\
  arr_get (edgeVerts C5_gridVert) 1 = -1 /\
  ComputeVerts_op C5_sdf (v3 F32.zero) (IVec3 4 4 4) (v3 (fl 1 0)) F32.zero 1%nat
                  (MortonCode (IVec4 1 1 1 0)) C5_state = (C5_state, Ok tt).
Proof.
  split; [reflexivity|]. split; [reflexivity|]. split; [discriminate|].
  split; [reflexivity|]. split; reflexivity.
Qed.

Lemma C5_crossing_iff_positivity_differs_witness :
  positive (C5_bsdf (neighbor_index (IVec4 1 1 1 0) 1)) = positive (distance C5_gridVert) /\
  edge_step C5_sdf (v3 F32.zero) (IVec3 4 4 4) (v3 (fl 1 0)) F32.zero
            (IVec4 1 1 1 0) (v3 (fl 1 (-1))) 1 (C5_gridVert, false) C5_state
    = (C5_state, Ok (C5_gridVert, false)).
Proof.
  assert (H : positive (C5_bsdf (neighbor_index (IVec4 1 1 1 0) 1))
              = positive (distance C5_gridVert)) by reflexivity.
  split; [exact H|].
  exact (proj1 (proj2 (C5_crossing_iff_positivity_differs C5_sdf (v3 F32.zero)
           (IVec3 4 4 4) (v3 (fl 1 0)) F32.zero (IVec4 1 1 1 0) (v3 (fl 1 (-1)))
           1 C5_gridVert false C5_state)) H).
Defined.

(** ** Driver: grid size *)

(** The rational value of a finite float. *)
Definition F32_value (f : F32.float) : option Q :=
  match f with
  | S754_zero _ => Some 0%Q
  | S754_finite s m e =>
      let a := if s then Zneg m else Zpos m in
      Some (if 0 <=? e then inject_Z (a * 2 ^ e)
            else Qmake a (Z.to_pos (2 ^ (- e))))
  | _ => None
  end.

(** Rounding toward zero. *)
Definition Qtrunc (q : Q) : Z := if Qle_bool 0 q then Qfloor q else Qceiling q.

Lemma pow2_pos e : 0 <= e -> 0 < 2 ^ e.
Proof. intros H. apply Z.pow_pos_nonneg; lia. Qed.

Lemma Qtrunc_inject n : Qtrunc (inject_Z n) = n.
Proof.
  unfold Qtrunc, Qle_bool, Qceiling, Qfloor, Qopp, inject_Z.
  cbn [Qnum Qden]. rewrite !Z.div_1_r.
  destruct (0 * 1 <=? n * 1); lia.
Qed.

Lemma Qtrunc_pos m p : Qtrunc (Zpos m # p) = Zpos m / Zpos p.
Proof. reflexivity. Qed.

Lemma Qtrunc_neg m p : Qtrunc (Zneg m # p) = - (Zpos m / Zpos p).
Proof. reflexivity. Qed.

Lemma to_int_trunc f t :
  F32.to_int f = Some t ->
  exists q, F32_value f = Some q /\ t = Qtrunc q.
Proof.
  destruct f as [s| | |s m e]; cbn [F32.to_int F32_value]; try discriminate.
  - intros [= <-]. exists 0%Q. split; reflexivity.
  - match goal with |- (if ?c then _ else _) = _ -> _ => destruct c end;
      [|discriminate].
    intros [= <-]. eexists. split; [reflexivity|].
    destruct (0 <=? e) eqn:E.
    + apply Z.leb_le in E. rewrite Qtrunc_inject, Z.shiftl_mul_pow2 by lia.
      destruct s; [change (Z.neg m) with (- Z.pos m); ring | reflexivity].
    + apply Z.leb_gt in E. rewrite Z.shiftr_div_pow2 by lia.
      pose proof (pow2_pos (- e) ltac:(lia)) as P.
      destruct s.
      * rewrite Qtrunc_neg, Z2Pos.id by lia. reflexivity.
      * rewrite Qtrunc_pos, Z2Pos.id by lia. reflexivity.
Qed.

(** C6 (amended). The driver computes [gridSize], per axis, as the
    single-precision quotient [boxDim / edgeLength] converted to [int], that
    is rounded toward zero (its floor, the quotient of a valid input being
    non-negative) -- not its ceiling. *)
Theorem C6_gridSize_truncates (dim : vec3) (edgeLength : F32.float) (g : ivec3) :
  LevelSet_gridSize dim edgeLength = Some g ->
  exists qx qy qz,
    F32_value (F32.div (fx dim) edgeLength) = Some qx /\
    F32_value (F32.div (fy dim) edgeLength) = Some qy /\
    F32_value (F32.div (fz dim) edgeLength) = Some qz /\
    g = IVec3 (Qtrunc qx) (Qtrunc qy) (Qtrunc qz).
Proof.
  unfold LevelSet_gridSize, V3.to_ivec3, V3.divs, V3.maps. simpl.
  destruct (F32.to_int (F32.div (fx dim) edgeLength)) as [a|] eqn:A; [|discriminate].
  destruct (F32.to_int (F32.div (fy dim) edgeLength)) as [b|] eqn:B; [|discriminate].
  destruct (F32.to_int (F32.div (fz dim) edgeLength)) as [c|] eqn:C; [|discriminate].
  intros [= <-].
  destruct (to_int_trunc _ _ A) as (qx & Vx & ->).
  destruct (to_int_trunc _ _ B) as (qy & Vy & ->).
  destruct (to_int_trunc _ _ C) as (qz & Vz & ->).
  exists qx, qy, qz. auto.
Qed.

(** A box of size 2.5 in every axis meshed at edge length 1. *)
Definition C6_dim : vec3 := v3 (fl 5 (-1)).
Definition C6_edgeLength : F32.float := fl 1 0.

Lemma C6_gridSize_truncates_witness :
  LevelSet_gridSize C6_dim C6_edgeLength = Some (IVec3 2 2 2) /\
  exists qx qy qz,
    F32_value (F32.div (fx C6_dim) C6_edgeLength) = Some qx /\
    F32_value (F32.div (fy C6_dim) C6_edgeLength) = Some qy /\
    F32_value (F32.div (fz C6_dim) C6_edgeLength) = Some qz /\
    IVec3 2 2 2 = IVec3 (Qtrunc qx) (Qtrunc qy) (Qtrunc qz).
Proof.
  assert (H : LevelSet_gridSize C6_dim C6_edgeLength = Some (IVec3 2 2 2))
    by reflexivity.
  split; [exact H|].
  exact (C6_gridSize_truncates C6_dim C6_edgeLength (IVec3 2 2 2) H).
Defined.

(** C6 (as stated) fails: for a box of size 2.5 and edge length 1 the
    quotient is exactly 5/2, whose ceiling is 3, while the driver computes
    the grid size 2 in every axis. *)
Lemma C6_gridSize_not_ceil :
  exists q,
    F32_value (F32.div (fx C6_dim) C6_edgeLength) = Some q /\
    (q == 5 # 2)%Q /\
    Qceiling q = 3 /\
    LevelSet_gridSize C6_dim C6_edgeLength = Some (IVec3 2 2 2) /\
    LevelSet_gridSize C6_dim C6_edgeLength <> Some (IVec3 3 3 3).
Proof.
  eexists. split; [reflexivity|].
  split; [reflexivity|]. split; [reflexivity|].
  split; [reflexivity|discriminate].
Qed.

(** ** Fullness gate of the vertex pass *)

Section FullGate.
Variable sdf : vec3 -> F32.float.
Variables (origin : vec3) (gridSize : ivec3) (spacing : vec3) (level : F32.float).
Variable fuel : nat.

Let op := ComputeVerts_op sdf origin gridSize spacing level fuel.

Lemma ComputeVerts_op_full code s :
  HT.Full (gridVerts s) = true -> op code s = (s, Ok tt).
Proof. intros H. unfold op, ComputeVerts_op. now rewrite H. Qed.

Lemma for_each_full codes s :
  HT.Full (gridVerts s) = true -> for_each codes op s = (s, Ok tt).
Proof.
  intros H. induction codes as [|c l IH]; [reflexivity|].
  simpl. unfold bind. rewrite ComputeVerts_op_full by exact H. exact IH.
Qed.
End FullGate.

(** C4 (amended). The fullness test is made by the vertex pass, not by
    [Insert]: once the table is Full ([used * 2 > capacity]), every later
    invocation of [ComputeVerts::operator()] returns at once, so no [Insert]
    is issued and every slot, the used count, the vertex counter and the
    vertex buffer are unchanged, for any number of further invocations. *)
Theorem C4_full_table_stops_vertex_pass
  (sdf : vec3 -> F32.float) (origin : vec3) (gridSize : ivec3)
  (spacing : vec3) (level : F32.float) (fuel : nat)
  (codes : list Z) (s : VertState) :
  HT.Full (gridVerts s) = true ->
  for_each codes (ComputeVerts_op sdf origin gridSize spacing level fuel) s
    = (s, Ok tt).
Proof. apply for_each_full. Qed.

(** A table of four slots holding the keys 0, 1 and 2: it is Full. *)
Definition C4_slot (k : Z) : GridVert :=
  mkGridVert k (F32.of_int 1) [0; -1; -1; -1; -1; -1; -1].

Definition C4_table : HashTableD :=
  mkHashTableD 127 [C4_slot 0; C4_slot 1; C4_slot 2; GridVert_default] 3.

Definition C4_vert : GridVert :=
  mkGridVert 7 (F32.of_int 1) [5; -1; -1; -1; -1; -1; -1].

(** The table above is what three calls of [Insert] build from an empty
    table of four slots. *)
Lemma C4_table_built :
  fst (HT.Insert 4 (C4_slot 2)
        (fst (HT.Insert 4 (C4_slot 1)
          (fst (HT.Insert 4 (C4_slot 0) (HT.create 4 127)))))) = C4_table.
Proof. reflexivity. Qed.

(** C4 (as stated) fails: [Insert] on a Full table is not dropped; the
    record is written into the open slot and the used count grows. *)
Lemma C4_insert_into_full_table :
  HT.Full C4_table = true /\
  HT.Insert 4 C4_vert C4_table =
    (mkHashTableD 127 [C4_slot 0; C4_slot 1; C4_slot 2; C4_vert] 4, Ok tt) /\
  fst (HT.Insert 4 C4_vert C4_table) <> C4_table.
Proof.
  split; [reflexivity|]. split; [reflexivity|].
  intros E. apply (f_equal used_) in E. discriminate E.
Qed.

Definition C4_state : VertState := mkVertState (repeat vec3_zero 28) 5 C4_table.

Lemma C4_full_table_stops_vertex_pass_witness :
  HT.Full (gridVerts C4_state) = true /\
  for_each [6; 7; 8]
    (ComputeVerts_op C5_sdf (v3 F32.zero) (IVec3 4 4 4) (v3 (fl 1 0)) F32.zero 4%nat)
    C4_state = (C4_state, Ok tt).
Proof.
  assert (H : HT.Full (gridVerts C4_state) = true) by reflexivity.
  split; [exact H|].
  exact (C4_full_table_stops_vertex_pass C5_sdf (v3 F32.zero) (IVec3 4 4 4)
           (v3 (fl 1 0)) F32.zero 4%nat [6; 7; 8] C4_state H).
Defined.

(** ** Hash table: the probe sequence *)

Section Probe.
Local Set Default Proof Using "All".
(** Capacity [C = 2^k] and stride [step], as in a table whose [Size()] is
    an [int] and whose [step_] is a [uint32_t]. *)
Variables (k step : Z).
Hypothesis Hk : 0 <= k <= 30.
Hypothesis Hstep : 0 <= step < 2 ^ 32.
Hypothesis Hgcd : Z.gcd step (2 ^ k) = 1.

Let C := 2 ^ k.

Lemma C_pos : 0 < C.
Proof. unfold C. apply Z.pow_pos_nonneg; lia. Qed.

Lemma C_bound : C <= 2 ^ 30.
Proof. unfold C. apply Z.pow_le_mono_r; lia. Qed.

(** The [j]-th slot probed from the slot [idx]. *)
Definition probe (idx : Z) (j : nat) : Z := (idx + Z.of_nat j * step) mod C.

Lemma probe_range idx j : 0 <= probe idx j < C.
Proof. unfold probe. apply Z.mod_pos_bound. exact C_pos. Qed.

Lemma probe_0 idx : 0 <= idx < C -> probe idx 0 = idx.
Proof. intros H. unfold probe. simpl. rewrite Z.add_0_r. now apply Z.mod_small. Qed.

Lemma probe_S idx j : probe (probe idx 1) j = probe idx (S j).
Proof.
  unfold probe. rewrite Zplus_mod_idemp_l. f_equal. lia.
Qed.

(** Every slot is met within the first [C] probes. *)
Lemma probe_surjective idx e :
  0 <= e < C -> exists j, (Z.of_nat j < C) /\ probe idx j = e.
Proof.
  intros He.
  destruct (Z.gcd_bezout step C 1 Hgcd) as (u & v & B).
  pose proof C_pos as P.
  exists (Z.to_nat (((e - idx) * u) mod C)).
  pose proof (Z.mod_pos_bound ((e - idx) * u) C P) as R.
  split; [lia|].
  unfold probe. rewrite Z2Nat.id by lia.
  rewrite <- Zplus_mod_idemp_r, Zmult_mod_idemp_l, Zplus_mod_idemp_r.
  replace (idx + (e - idx) * u * step) with (e + (- (e - idx) * v) * C).
  2:{ assert (E : u * step = 1 - v * C) by lia.
      rewrite <- (Z.mul_assoc (e - idx)), E. ring. }
  rewrite Z.mod_add by lia. now apply Z.mod_small.
Qed.

Section Table.
Variable h : HashTableD.
Hypothesis Hsize : HT.Size h = C.
Hypothesis Hstep_h : step_ h = step.

Lemma mask_mod x : 0 <= x -> HT.mask h x = x mod C.
Proof.
  intros Hx. unfold HT.mask. rewrite Hsize.
  pose proof C_pos. pose proof C_bound.
  rewrite IntFacts.u64_small by lia.
  unfold C. replace (2 ^ k - 1) with (Z.ones k) by (rewrite Z.ones_equiv; lia).
  rewrite Z.land_ones by lia. fold C.
  apply IntFacts.u32_small. pose proof (Z.mod_pos_bound x C ltac:(lia)). lia.
Qed.

Lemma next_probe idx :
  0 <= idx < C -> HT.mask h (Int.u32 (idx + step_ h)) = probe idx 1.
Proof.
  intros H. rewrite Hstep_h.
  pose proof C_pos.
  rewrite mask_mod by (unfold Int.u32; apply Z.mod_pos_bound; lia).
  unfold Int.u32, probe.
  rewrite Z.mod_mod_divide.
  - f_equal. lia.
  - unfold C. exists (2 ^ (32 - k)). rewrite <- Z.pow_add_r by lia.
    f_equal. lia.
Qed.

Lemma slot_read idx :
  0 <= idx < C ->
  exists g, buf_read (table_ h) idx = Ok g /\
            nth_error (table_ h) (Z.to_nat idx) = Some g.
Proof.
  intros H. apply buf_read_ok. unfold HT.Size in Hsize. lia.
Qed.

(** A probe of [key0] stops on a slot holding [key0] or the open key. *)
Definition stops (key0 : Z) (g : GridVert) : bool :=
  (key g =? key0) || (key g =? kOpen).

Definition passes (key0 idx : Z) (j : nat) : Prop :=
  forall j', (j' < j)%nat ->
    exists g, nth_error (table_ h) (Z.to_nat (probe idx j')) = Some g /\
              stops key0 g = false.

Lemma passes_shift key0 idx j :
  0 <= idx < C -> passes key0 idx (S j) -> passes key0 (probe idx 1) j.
Proof.
  intros Hi P j' Hj. rewrite probe_S. apply P. lia.
Qed.

Lemma lookup_loop_walk key0 j : forall fuel idx g,
  0 <= idx < C ->
  passes key0 idx j ->
  nth_error (table_ h) (Z.to_nat (probe idx j)) = Some g ->
  stops key0 g = true ->
  (j < fuel)%nat ->
  HT.lookup_loop fuel h key0 idx = Ok g.
Proof.
  induction j as [|j IH]; intros fuel idx g Hi P N S F.
  - destruct fuel as [|fuel]; [lia|]. simpl.
    rewrite probe_0 in N by exact Hi.
    destruct (slot_read idx Hi) as (g' & -> & N'). rewrite N in N'.
    injection N' as <-. unfold stops in S. now rewrite S.
  - destruct fuel as [|fuel]; [lia|]. simpl.
    destruct (slot_read idx Hi) as (g' & -> & N').
    destruct (P 0%nat ltac:(lia)) as (g0 & N0 & S0).
    rewrite probe_0 in N0 by exact Hi. rewrite N0 in N'. injection N' as <-.
    unfold stops in S0. rewrite S0.
    rewrite next_probe by exact Hi.
    apply IH.
    + apply probe_range.
    + now apply passes_shift.
    + now rewrite probe_S.
    + exact S.
    + lia.
Qed.

Lemma passes_or_stops key0 idx j :
  passes key0 idx j \/
  exists j1 g1, (j1 < j)%nat /\
    nth_error (table_ h) (Z.to_nat (probe idx j1)) = Some g1 /\
    stops key0 g1 = true.
Proof.
  induction j as [|j IH].
  - left. intros j' Hj. lia.
  - destruct IH as [P|(j1 & g1 & L & R)].
    + destruct (slot_read (probe idx j) (probe_range idx j)) as (g & _ & N).
      destruct (stops key0 g) eqn:S.
      * right. exists j, g. auto.
      * left. intros j' Hj.
        destruct (Nat.eq_dec j' j) as [->|D]; [eauto|apply P; lia].
    + right. exists j1, g1. split; [lia|exact R].
Qed.

(** The first stopping probe, when some probe stops. *)
Lemma first_stop key0 idx j :
  (exists g, nth_error (table_ h) (Z.to_nat (probe idx j)) = Some g /\
             stops key0 g = true) ->
  exists j0 g0, (j0 <= j)%nat /\ passes key0 idx j0 /\
    nth_error (table_ h) (Z.to_nat (probe idx j0)) = Some g0 /\
    stops key0 g0 = true.
Proof.
  induction j as [j IH] using (well_founded_induction lt_wf).
  intros (g & N & S).
  destruct (passes_or_stops key0 idx j) as [P|(j1 & g1 & L1 & N1 & S1)].
  - exists j, g. auto.
  - destruct (IH j1 L1 (ex_intro _ g1 (conj N1 S1))) as (j0 & g0 & L0 & R).
    exists j0, g0. split; [lia|exact R].
Qed.

Definition written (v : GridVert) (idx : Z) : HashTableD :=
  mkHashTableD (step_ h) (list_set (table_ h) (Z.to_nat idx) v)
               (Int.u32 (used_ h + 1)).

Lemma Insert_loop_walk v j : forall fuel idx g,
  0 <= idx < C ->
  passes (key v) idx j ->
  nth_error (table_ h) (Z.to_nat (probe idx j)) = Some g ->
  stops (key v) g = true ->
  (j < fuel)%nat ->
  HT.Insert_loop fuel v idx h =
    (if key g =? kOpen then written v (probe idx j) else h, Ok tt).
Proof.
  induction j as [|j IH]; intros fuel idx g Hi P N S F.
  - destruct fuel as [|fuel]; [lia|]. simpl.
    rewrite probe_0 in * by exact Hi.
    destruct (slot_read idx Hi) as (g' & -> & N'). rewrite N in N'.
    injection N' as <-.
    destruct (key g =? kOpen) eqn:E.
    + rewrite buf_write_ok; [reflexivity|]. unfold HT.Size in Hsize. lia.
    + unfold stops in S. rewrite E, orb_false_r in S. now rewrite S.
  - destruct fuel as [|fuel]; [lia|]. simpl.
    destruct (slot_read idx Hi) as (g' & -> & N').
    destruct (P 0%nat ltac:(lia)) as (g0 & N0 & S0).
    rewrite probe_0 in N0 by exact Hi. rewrite N0 in N'. injection N' as <-.
    unfold stops in S0. apply orb_false_iff in S0. destruct S0 as [S1 S2].
    rewrite S1, S2.
    rewrite next_probe by exact Hi.
    rewrite <- (probe_S idx j). apply IH.
    + apply probe_range.
    + now apply passes_shift.
    + now rewrite probe_S.
    + exact S.
    + lia.
Qed.

Lemma Insert_loop_exhaust v fuel : forall idx,
  0 <= idx < C ->
  passes (key v) idx fuel ->
  HT.Insert_loop fuel v idx h = (h, Fault OutOfFuel).
Proof.
  induction fuel as [|fuel IH]; intros idx Hi P; [reflexivity|]. simpl.
  destruct (slot_read idx Hi) as (g' & -> & N').
  destruct (P 0%nat ltac:(lia)) as (g0 & N0 & S0).
  rewrite probe_0 in N0 by exact Hi. rewrite N0 in N'. injection N' as <-.
  unfold stops in S0. apply orb_false_iff in S0. destruct S0 as [S1 S2].
  rewrite S1, S2. rewrite next_probe by exact Hi.
  apply IH; [apply probe_range | now apply passes_shift].
Qed.

Lemma lookup_loop_exhaust key0 fuel : forall idx,
  0 <= idx < C ->
  passes key0 idx fuel ->
  HT.lookup_loop fuel h key0 idx = Fault OutOfFuel.
Proof.
  induction fuel as [|fuel IH]; intros idx Hi P; [reflexivity|]. simpl.
  destruct (slot_read idx Hi) as (g' & -> & N').
  destruct (P 0%nat ltac:(lia)) as (g0 & N0 & S0).
  rewrite probe_0 in N0 by exact Hi. rewrite N0 in N'. injection N' as <-.
  unfold stops in S0. rewrite S0. rewrite next_probe by exact Hi.
  apply IH; [apply probe_range | now apply passes_shift].
Qed.

(** What a returning [Insert] has done. *)
Lemma Insert_loop_inv v fuel idx h' :
  0 <= idx < C ->
  HT.Insert_loop fuel v idx h = (h', Ok tt) ->
  exists j g, (j < fuel)%nat /\ passes (key v) idx j /\
    nth_error (table_ h) (Z.to_nat (probe idx j)) = Some g /\
    stops (key v) g = true /\
    h' = (if key g =? kOpen then written v (probe idx j) else h).
Proof.
  intros Hi E.
  destruct (passes_or_stops (key v) idx fuel) as [P|(j1 & g1 & L1 & N1 & S1)].
  - rewrite Insert_loop_exhaust in E by assumption. discriminate.
  - destruct (first_stop (key v) idx j1 (ex_intro _ g1 (conj N1 S1)))
      as (j0 & g0 & L0 & P0 & N0 & S0).
    rewrite (Insert_loop_walk v j0 fuel idx g0) in E by (auto; lia).
    injection E as <-. exists j0, g0. repeat split; auto. lia.
Qed.

(** With an open slot in the table, every probe sequence stops within
    [C] probes. *)
Lemma stop_within_C key0 idx :
  (exists i g, nth_error (table_ h) i = Some g /\ key g = kOpen) ->
  exists j0 g0, (Z.of_nat j0 < C) /\ passes key0 idx j0 /\
    nth_error (table_ h) (Z.to_nat (probe idx j0)) = Some g0 /\
    stops key0 g0 = true.
Proof.
  intros (i & g & N & O).
  assert (Ri : 0 <= Z.of_nat i < C).
  { unfold HT.Size in Hsize.
    assert (i < length (table_ h))%nat
      by (apply nth_error_Some; rewrite N; discriminate).
    lia. }
  destruct (probe_surjective idx (Z.of_nat i) Ri) as (j & Lj & Pj).
  destruct (first_stop key0 idx j) as (j0 & g0 & L0 & R).
  - exists g. rewrite Pj, Nat2Z.id. split; [exact N|].
    unfold stops. rewrite O, Z.eqb_refl. apply orb_true_r.
  - exists j0, g0. split; [lia|exact R].
Qed.
End Table.
End Probe.

(** ** Hash table: tables built by [Insert] *)

Section Built.
Local Set Default Proof Using "All".
Variables (k step : Z).
Hypothesis Hk : 0 <= k <= 30.
Hypothesis Hstep : 0 <= step < 2 ^ 32.
Hypothesis Hgcd : Z.gcd step (2 ^ k) = 1.

Let C := 2 ^ k.

(** Tables obtained from the empty table of [C] slots by calls of
    [Insert] with proper keys (a [Uint64] other than the open key). *)
Inductive built : HashTableD -> Prop :=
| built_empty :
    built (mkHashTableD step (repeat GridVert_default (Z.to_nat (2 ^ k))) 0)
| built_Insert h v fuel h' :
    built h ->
    0 <= key v < 2 ^ 64 -> key v <> kOpen ->
    HT.Insert fuel v h = (h', Ok tt) ->
    built h'.

(** Invariant of built tables: open slots hold the default record, and
    every record is reached from its home slot through slots that hold
    other keys. *)
Record table_ok (h : HashTableD) : Prop := {
  ok_size : HT.Size h = C;
  ok_step : step_ h = step;
  ok_open : forall i g,
      nth_error (table_ h) i = Some g -> key g = kOpen -> g = GridVert_default;
  ok_key : forall i g,
      nth_error (table_ h) i = Some g -> 0 <= key g < 2 ^ 64;
  ok_path : forall i g,
      nth_error (table_ h) i = Some g -> key g <> kOpen ->
      exists j, Z.to_nat (probe k step (key g mod C) j) = i /\
                passes k step h (key g) (key g mod C) j
}.

Lemma table_ok_empty :
  table_ok (mkHashTableD step (repeat GridVert_default (Z.to_nat (2 ^ k))) 0).
Proof.
  pose proof (C_pos k step Hk Hstep Hgcd) as P.
  assert (D : forall i g,
             nth_error (repeat GridVert_default (Z.to_nat (2 ^ k))) i = Some g ->
             g = GridVert_default).
  { intros i g N. apply nth_error_In in N. now apply repeat_spec in N. }
  split; simpl.
  - unfold HT.Size. simpl. rewrite repeat_length. unfold C. lia.
  - reflexivity.
  - intros i g N _. eauto.
  - intros i g N. rewrite (D i g N). simpl. unfold kOpen. lia.
  - intros i g N O. rewrite (D i g N) in O. now contradiction O.
Qed.

Lemma passes_written h v p g u key0 idx j :
  nth_error (table_ h) p = Some g -> key g = kOpen ->
  passes k step h key0 idx j ->
  passes k step (mkHashTableD (step_ h) (list_set (table_ h) p v) u) key0 idx j.
Proof.
  intros N O P j' Hj. destruct (P j' Hj) as (g' & N' & S').
  exists g'. split; [|exact S']. simpl.
  rewrite nth_error_list_set_ne; [exact N'|].
  intros E. rewrite <- E, N in N'. injection N' as <-.
  unfold stops in S'. rewrite O, Z.eqb_refl, orb_true_r in S'. discriminate.
Qed.

Lemma table_ok_Insert h v fuel h' :
  table_ok h ->
  0 <= key v < 2 ^ 64 -> key v <> kOpen ->
  HT.Insert fuel v h = (h', Ok tt) ->
  table_ok h'.
Proof.
  intros [Hs Ht Ho Hkey Hp] Kv Nv E.
  unfold HT.Insert in E.
  rewrite (mask_mod k step Hk Hstep Hgcd h Hs Ht) in E by lia.
  pose proof (C_pos k step Hk Hstep Hgcd) as P. fold C in P.
  assert (Rh : 0 <= key v mod C < C) by (apply Z.mod_pos_bound; lia).
  destruct (Insert_loop_inv k step Hk Hstep Hgcd h Hs Ht v fuel _ h' Rh E)
    as (j & g & Lj & Pj & Nj & Sj & ->).
  destruct (key g =? kOpen) eqn:O; [|split; assumption].
  apply Z.eqb_eq in O.
  set (p := Z.to_nat (probe k step (key v mod C) j)) in *.
  assert (Ep : probe k step (key v mod C) j = Z.of_nat p).
  { unfold p. pose proof (probe_range k step Hk Hstep Hgcd (key v mod C) j). lia. }
  rewrite Ep.
  assert (Lp : (p < length (table_ h))%nat)
    by (apply nth_error_Some; rewrite Nj; discriminate).
  split; unfold written; simpl; rewrite ?Nat2Z.id.
  - unfold HT.Size in *. simpl. now rewrite length_list_set.
  - exact Ht.
  - intros i g' N' O'. destruct (Nat.eq_dec p i) as [<-|D].
    + rewrite nth_error_list_set_eq in N' by exact Lp. injection N' as <-.
      contradiction.
    + rewrite nth_error_list_set_ne in N' by exact D. eauto.
  - intros i g' N'. destruct (Nat.eq_dec p i) as [<-|D].
    + rewrite nth_error_list_set_eq in N' by exact Lp. now injection N' as <-.
    + rewrite nth_error_list_set_ne in N' by exact D. eauto.
  - intros i g' N' O'. destruct (Nat.eq_dec p i) as [<-|D].
    + rewrite nth_error_list_set_eq in N' by exact Lp. injection N' as <-.
      exists j. split; [reflexivity|].
      apply (passes_written h v p g); assumption.
    + rewrite nth_error_list_set_ne in N' by exact D.
      destruct (Hp i g' N' O') as (j' & Ej & Pj').
      exists j'. split; [exact Ej|].
      apply (passes_written h v p g); assumption.
Qed.

Lemma built_table_ok h : built h -> table_ok h.
Proof.
  induction 1 as [|h v fuel h' B IH Kv Nv E].
  - apply table_ok_empty.
  - now apply (table_ok_Insert h v fuel h').
Qed.

(** Lookup in a table that satisfies the invariant and has an open slot. *)
Lemma lookup_table_ok h key0 fuel :
  table_ok h ->
  (exists i g, nth_error (table_ h) i = Some g /\ key g = kOpen) ->
  0 <= key0 < 2 ^ 64 ->
  C <= Z.of_nat fuel ->
  exists g,
    HT.lookup fuel h key0 = Ok g /\
    In g (table_ h) /\
    (key g = key0 \/ key g = kOpen) /\
    (forall i g', nth_error (table_ h) i = Some g' -> key g' = key0 -> g' = g) /\
    ((forall g', In g' (table_ h) -> key g' <> key0) -> g = GridVert_default).
Proof.
  intros [Hs Ht Ho Hkey Hp] Hopen K0 F.
  pose proof (C_pos k step Hk Hstep Hgcd) as P. fold C in P.
  assert (Rh : 0 <= key0 mod C < C) by (apply Z.mod_pos_bound; lia).
  destruct (stop_within_C k step Hk Hstep Hgcd h Hs Ht key0 (key0 mod C) Hopen)
    as (j0 & g0 & L0 & P0 & N0 & S0).
  exists g0. split; [|split; [|split; [|split]]].
  - unfold HT.lookup. rewrite (mask_mod k step Hk Hstep Hgcd h Hs Ht) by lia.
    apply (lookup_loop_walk k step Hk Hstep Hgcd h Hs Ht key0 j0); auto.
    fold C in L0. lia.
  - eapply nth_error_In; eassumption.
  - unfold stops in S0. apply orb_true_iff in S0.
    destruct S0 as [S|S]; apply Z.eqb_eq in S; auto.
  - intros i g' N' E'.
    destruct (Z.eq_dec (key g') kOpen) as [O|O].
    + rewrite (Ho i g' N' O).
      unfold stops in S0. apply orb_true_iff in S0.
      destruct S0 as [S|S]; apply Z.eqb_eq in S.
      * symmetry. eapply Ho; [eassumption|congruence].
      * symmetry. eapply Ho; eassumption.
    + destruct (Hp i g' N' O) as (j & Ej & Pj).
      rewrite E' in *.
      destruct (lt_eq_lt_dec j j0) as [[L|L]|L].
      * destruct (P0 j L) as (g1 & N1 & S1).
        fold C in N1. rewrite Ej, N' in N1. injection N1 as <-.
        unfold stops in S1. rewrite E', Z.eqb_refl in S1. discriminate.
      * subst j0. fold C in N0. rewrite Ej, N' in N0. now injection N0.
      * destruct (Pj j0 L) as (g1 & N1 & S1).
        rewrite N0 in N1. injection N1 as <-. congruence.
  - intros A.
    unfold stops in S0. apply orb_true_iff in S0.
    destruct S0 as [S|S]; apply Z.eqb_eq in S.
    + exfalso. apply (A g0); [eapply nth_error_In; eassumption|exact S].
    + eapply Ho; eassumption.
Qed.
End Built.

(** C7. In a table of capacity [C = 2^k] whose stride is coprime to [C],
    built only by [Insert] and with at least one open slot, the probing loop
    of [operator[]] terminates (within [C] iterations) and returns the
    stored record whose key is [key0] when there is one, and otherwise the
    default record (open key, all edge vertices -1) of the first open slot it
    meets. *)
Theorem C7_lookup_built_table (k step : Z) (h : HashTableD) (key0 : Z) (fuel : nat) :
  0 <= k <= 30 ->
  0 <= step < 2 ^ 32 ->
  Z.gcd step (2 ^ k) = 1 ->
  built k step h ->
  (exists i g, nth_error (table_ h) i = Some g /\ key g = kOpen) ->
  0 <= key0 < 2 ^ 64 ->
  2 ^ k <= Z.of_nat fuel ->
  exists g,
    HT.lookup fuel h key0 = Ok g /\
    In g (table_ h) /\
    (forall i g', nth_error (table_ h) i = Some g' -> key g' = key0 ->
                  g' = g /\ key g = key0) /\
    ((forall g', In g' (table_ h) -> key g' <> key0) ->
     g = GridVert_default /\ key g = kOpen /\
     edgeVerts g = [-1; -1; -1; -1; -1; -1; -1]).
Proof.
  intros Hk Hstep Hgcd B Hopen K0 F.
  destruct (lookup_table_ok k step Hk Hstep Hgcd h key0 fuel
              (built_table_ok k step Hk Hstep Hgcd h B) Hopen K0 F)
    as (g & L & I & S & U & D).
  exists g. split; [exact L|]. split; [exact I|]. split.
  - intros i g' N E. pose proof (U i g' N E) as ->. auto.
  - intros A. rewrite (D A). auto.
Qed.

(** Eight slots, stride 127; the keys 0 and 8 share the home slot 0, so the
    record of key 8 sits one probe further, in slot 7. *)
Definition C7_vert (key0 e : Z) : GridVert :=
  mkGridVert key0 (F32.of_int 1) [e; -1; -1; -1; -1; -1; -1].

Definition C7_table : HashTableD :=
  fst (HT.Insert 8 (C7_vert 8 1) (fst (HT.Insert 8 (C7_vert 0 0) (HT.create 8 127)))).

Lemma C7_table_built : built 3 127 C7_table.
Proof.
  apply (built_Insert 3 127 (fst (HT.Insert 8 (C7_vert 0 0) (HT.create 8 127)))
           (C7_vert 8 1) 8).
  - apply (built_Insert 3 127 (HT.create 8 127) (C7_vert 0 0) 8).
    + apply built_empty.
    + simpl. lia.
    + discriminate.
    + reflexivity.
  - simpl. lia.
  - discriminate.
  - reflexivity.
Qed.

Lemma C7_lookup_built_table_witness :
  exists g,
    HT.lookup 8 C7_table 8 = Ok g /\
    In g (table_ C7_table) /\
    (forall i g', nth_error (table_ C7_table) i = Some g' -> key g' = 8 ->
                  g' = g /\ key g = 8) /\
    ((forall g', In g' (table_ C7_table) -> key g' <> 8) ->
     g = GridVert_default /\ key g = kOpen /\
     edgeVerts g = [-1; -1; -1; -1; -1; -1; -1]).
Proof.
  apply (C7_lookup_built_table 3 127 C7_table 8 8).
  - lia.
  - lia.
  - reflexivity.
  - exact C7_table_built.
  - exists 1%nat, GridVert_default. split; reflexivity.
  - lia.
  - simpl. lia.
Defined.

(** ** Vertex pass: bound on the vertex counter *)

(** Number of slots holding a key other than the open key. *)
Definition occupied (t : list GridVert) : Z :=
  Z.of_nat (length (filter (fun g => negb (key g =? kOpen)) t)).

Lemma occupied_le t : occupied t <= Z.of_nat (length t).
Proof. unfold occupied. pose proof (filter_length_le (fun g => negb (key g =? kOpen)) t). lia. Qed.

Lemma occupied_open t :
  occupied t < Z.of_nat (length t) ->
  exists i g, nth_error t i = Some g /\ key g = kOpen.
Proof.
  unfold occupied. induction t as [|g t IH]; simpl; [lia|].
  destruct (key g =? kOpen) eqn:E; simpl.
  - intros _. exists 0%nat, g. apply Z.eqb_eq in E. auto.
  - intros H. destruct IH as (i & g' & N & O); [lia|].
    exists (S i), g'. auto.
Qed.

Lemma occupied_list_set t p v :
  occupied (list_set t p v) <= occupied t + 1.
Proof.
  unfold occupied. revert p. induction t as [|g t IH]; intros [|p]; simpl; try lia.
  - destruct (negb (key v =? kOpen)), (negb (key g =? kOpen)); simpl; lia.
  - specialize (IH p). destruct (negb (key g =? kOpen)); simpl; lia.
Qed.

Lemma In_list_set {A} (l : list A) p v x :
  In x (list_set l p v) -> x = v \/ In x l.
Proof.
  revert p. induction l as [|h t IH]; intros [|p]; simpl; try tauto.
  - intros [->|H]; auto.
  - intros [->|H]; auto. destruct (IH p H); auto.
Qed.

Lemma count_from_S start n :
  count_from start (S n) = start :: count_from (start + 1) n.
Proof.
  unfold count_from. simpl seq. simpl map. f_equal; [lia|].
  rewrite <- seq_shift, map_map. apply map_ext. intros a. lia.
Qed.

Section CounterBound.
Local Set Default Proof Using "All".
Variable sdf : vec3 -> F32.float.
Variables (origin : vec3) (gridSize : ivec3) (spacing : vec3) (level : F32.float).
Variable fuel : nat.
Variables (k step : Z).
Hypothesis Hk : 0 <= k <= 30.
Hypothesis Hstep : 0 <= step < 2 ^ 32.
Hypothesis Hgcd : Z.gcd step (2 ^ k) = 1.
Hypothesis Hbuf : 7 * 2 ^ k <= Int.INT_MAX.
Hypothesis Hfuel : 2 ^ k <= Z.of_nat fuel.

Let C := 2 ^ k.
Let op := ComputeVerts_op sdf origin gridSize spacing level fuel.

(** Invariant of the pass before the invocation on code [a]. *)
Record pass_inv (a : Z) (s : VertState) : Prop := {
  pi_size : HT.Size (gridVerts s) = C;
  pi_step : step_ (gridVerts s) = step;
  pi_buf : Z.of_nat (length (vertPos s)) = 7 * C;
  pi_occ : occupied (table_ (gridVerts s)) <= used_ (gridVerts s);
  pi_used : 0 <= used_ (gridVerts s) <= C;
  pi_idx : 0 <= vertIndex s <= 7 * used_ (gridVerts s);
  pi_keys : forall g, In g (table_ (gridVerts s)) ->
                      key g = kOpen \/ 0 <= key g < a
}.

(** The loop over the owned edges allocates at most one vertex per edge
    and only touches the vertex buffer and counter. *)
Lemma edge_loop_bound gridIndex position l : forall gv keep s,
  0 <= vertIndex s ->
  vertIndex s + Z.of_nat (length l) <= Z.of_nat (length (vertPos s)) ->
  Z.of_nat (length (vertPos s)) <= Int.INT_MAX ->
  exists s' gv' keep',
    edge_loop sdf origin gridSize spacing level gridIndex position l (gv, keep) s
      = (s', Ok (gv', keep')) /\
    gridVerts s' = gridVerts s /\
    length (vertPos s') = length (vertPos s) /\
    key gv' = key gv /\
    vertIndex s <= vertIndex s' <= vertIndex s + Z.of_nat (length l) /\
    (keep' = false -> s' = s /\ keep = false).
Proof.
  induction l as [|i l IH]; intros gv keep s H0 H1 H2.
  - exists s, gv, keep. simpl. repeat split; auto; lia.
  - cbn [edge_loop]. unfold bind.
    unfold edge_step at 1.
    destruct (eqb _ _).
    + cbn [ret]. destruct (IH gv keep s) as (s' & gv' & keep' & E & R);
        [lia|simpl length in H1; lia|lia|].
      rewrite E. exists s', gv', keep'. split; [reflexivity|].
      destruct R as (R1 & R2 & R3 & R4 & R5).
      simpl length in *.
      split; [exact R1|]. split; [exact R2|]. split; [exact R3|].
      split; [lia|exact R5].
    + unfold bind, AtomicAdd_vertIndex, write_vertPos.
      cbn [vertPos vertIndex gridVerts fst snd].
      simpl length in H1. unfold Int.INT_MAX in *.
      rewrite buf_write_ok by lia. cbn [ret].
      rewrite IntFacts.i32_small by lia.
      match goal with
      | |- context [edge_loop _ _ _ _ _ _ _ _ (?g, true) ?st] =>
          destruct (IH g true st) as (s' & gv' & keep' & E & R1 & R2 & R3 & R4 & R5)
      end.
      * cbn [vertIndex]. lia.
      * cbn [vertIndex vertPos]. rewrite length_list_set. lia.
      * cbn [vertPos]. rewrite length_list_set. lia.
      * rewrite E. exists s', gv', keep'. split; [reflexivity|].
        cbn [vertPos vertIndex gridVerts key] in R1, R2, R3, R4.
        rewrite length_list_set in R2.
        split; [exact R1|]. split; [exact R2|]. split; [exact R3|].
        split; [simpl length; lia|].
        intros K. destruct (R5 K) as [_ K']. discriminate K'.
Qed.

Lemma not_Full_used s a :
  pass_inv a s -> HT.Full (gridVerts s) = false ->
  used_ (gridVerts s) + 1 <= C.
Proof.
  intros [Hs _ _ _ Hu _ _] F. unfold HT.Full in F. rewrite Hs in F.
  pose proof (C_pos k step Hk Hstep Hgcd) as P. fold C in P.
  unfold Int.INT_MAX in Hbuf. fold C in Hbuf.
  rewrite !IntFacts.u32_small in F by lia.
  rewrite Z.gtb_ltb, Z.ltb_ge in F. lia.
Qed.

Lemma op_preserves a s :
  0 <= a < 2 ^ 64 ->
  pass_inv a s ->
  exists s', op a s = (s', Ok tt) /\ pass_inv (a + 1) s'.
Proof.
  intros Ha I.
  assert (W : pass_inv (a + 1) s).
  { destruct I. split; auto. intros g G. destruct (pi_keys0 g G); [auto|right; lia]. }
  unfold op, ComputeVerts_op.
  destruct (HT.Full (gridVerts s)) eqn:F; [eauto|].
  destruct (any_gt3 _ _); [eauto|].
  pose proof (not_Full_used s a I F) as U.
  pose proof (C_pos k step Hk Hstep Hgcd) as P. fold C in P.
  destruct I as [Hs Ht Hb Ho Hu Hi Hkeys].
  unfold Int.INT_MAX in Hbuf. fold C in Hbuf.
  unfold bind.
  match goal with
  | |- context [edge_loop _ _ _ _ _ ?gi ?pos ?l (?g, false) s] =>
      destruct (edge_loop_bound gi pos l g false s)
        as (s' & gv' & keep' & E & R1 & R2 & R3 & R4 & R5)
  end.
  - lia.
  - simpl length. lia.
  - unfold Int.INT_MAX. lia.
  - rewrite E. cbn [snd fst]. simpl length in R4. simpl key in R3.
    destruct keep'.
    + unfold on_table, HT.Insert.
      rewrite R1.
      rewrite (mask_mod k step Hk Hstep Hgcd _ Hs Ht) by lia. fold C.
      assert (Rh : 0 <= key gv' mod C < C) by (apply Z.mod_pos_bound; lia).
      destruct (stop_within_C k step Hk Hstep Hgcd (gridVerts s) Hs Ht
                  (key gv') (key gv' mod C)) as (j0 & g0 & L0 & P0 & N0 & S0).
      { apply occupied_open. unfold HT.Size in Hs. lia. }
      rewrite (Insert_loop_walk k step Hk Hstep Hgcd (gridVerts s) Hs Ht
                 gv' j0 fuel _ g0 Rh P0 N0 S0) by (fold C in L0; lia).
      assert (O : key g0 = kOpen).
      { unfold stops in S0. apply orb_true_iff in S0.
        destruct S0 as [S|S]; apply Z.eqb_eq in S; [|exact S].
        destruct (Hkeys g0 (nth_error_In _ _ N0)); [assumption|lia]. }
      rewrite O, Z.eqb_refl.
      eexists. split; [reflexivity|].
      unfold written. split; cbn [gridVerts vertPos vertIndex table_ step_ used_].
      * unfold HT.Size in *. cbn [table_]. now rewrite length_list_set.
      * exact Ht.
      * rewrite R2. exact Hb.
      * rewrite IntFacts.u32_small by lia.
        pose proof (occupied_list_set (table_ (gridVerts s))
                      (Z.to_nat (probe k step (key gv' mod C) j0)) gv'). lia.
      * rewrite IntFacts.u32_small by lia. lia.
      * rewrite IntFacts.u32_small by lia. lia.
      * intros g G. apply In_list_set in G. destruct G as [->|G].
        -- rewrite R3. right. lia.
        -- destruct (Hkeys g G); [auto|right; lia].
    + rewrite (proj1 (R5 eq_refl)). exists s. split; [reflexivity|exact W].
Qed.

Lemma pass_preserves n : forall a s,
  0 <= a -> a + Z.of_nat n <= 2 ^ 64 ->
  pass_inv a s ->
  exists s', for_each (count_from a n) op s = (s', Ok tt) /\
             pass_inv (a + Z.of_nat n) s'.
Proof.
  induction n as [|n IH]; intros a s H0 H1 I.
  - exists s. split; [reflexivity|]. now rewrite Z.add_0_r.
  - rewrite count_from_S. cbn [for_each]. unfold bind.
    destruct (op_preserves a s ltac:(lia) I) as (s1 & E1 & I1).
    rewrite E1.
    destruct (IH (a + 1) s1 ltac:(lia) ltac:(lia) I1) as (s2 & E2 & I2).
    exists s2. split; [exact E2|].
    replace (a + Z.of_nat (S n)) with (a + 1 + Z.of_nat n) by lia. exact I2.
Qed.
End CounterBound.

Lemma occupied_repeat n : occupied (repeat GridVert_default n) = 0.
Proof. unfold occupied. induction n as [|n IH]; simpl; [reflexivity|exact IH]. Qed.

Lemma divide_pow2_odd d k :
  0 <= k -> Z.gcd d 2 = 1 -> (d | 2 ^ k) -> (d | 1).
Proof.
  intros Hk G. pattern k. apply natlike_ind; [| |exact Hk]; clear k Hk.
  - intros D. exact D.
  - intros k Hk IH D. apply IH.
    rewrite Z.pow_succ_r in D by exact Hk.
    apply (Z.gauss d 2 (2 ^ k)); assumption.
Qed.

Lemma gcd_127_pow2 k : 0 <= k -> Z.gcd 127 (2 ^ k) = 1.
Proof.
  intros H. set (d := Z.gcd 127 (2 ^ k)).
  assert (D1 : (d | 127)) by apply Z.gcd_divide_l.
  assert (D2 : (d | 2 ^ k)) by apply Z.gcd_divide_r.
  assert (G : Z.gcd d 2 = 1).
  { apply Z.divide_1_r_nonneg; [apply Z.gcd_nonneg|].
    change 1 with (Z.gcd 127 2). apply Z.gcd_greatest.
    - eapply Z.divide_trans; [apply Z.gcd_divide_l|exact D1].
    - apply Z.gcd_divide_r. }
  apply Z.divide_1_r_nonneg; [apply Z.gcd_nonneg|].
  exact (divide_pow2_odd d k H G D2).
Qed.

(** A table made by the constructor that has a slot at all has [2^k]
    slots for some [k <= 30]. *)
Lemma create_table size step :
  1 <= HT.Size (HT.create size step) ->
  exists k, 0 <= k <= 30 /\
    table_ (HT.create size step) = repeat GridVert_default (Z.to_nat (2 ^ k)) /\
    step_ (HT.create size step) = step /\
    used_ (HT.create size step) = 0 /\
    HT.Size (HT.create size step) = 2 ^ k.
Proof.
  pose proof (Z.log2_up_nonneg size) as L.
  unfold HT.create, HT.Size. cbn [table_ step_ used_].
  rewrite repeat_length, Z.shiftl_1_l.
  set (k := Z.log2_up size) in *. intros H.
  pose proof (Z.pow_pos_nonneg 2 k ltac:(lia) L) as P.
  assert (K : k <= 30).
  { destruct (Z_le_gt_dec k 30) as [K|K]; [exact K|exfalso].
    assert (E : 2 ^ k = 2 ^ 31 * 2 ^ (k - 31)).
    { rewrite <- Z.pow_add_r by lia. f_equal. lia. }
    pose proof (Z.pow_pos_nonneg 2 (k - 31) ltac:(lia) ltac:(lia)) as Q.
    pose proof (IntFacts.i32_range (2 ^ k)) as R.
    assert (N : Int.i32 (2 ^ k) <= 0).
    { unfold Int.i32.
      destruct (Z.eq_dec (k - 31) 0) as [Z0|Z0].
      - replace k with 31 by lia. vm_compute. discriminate.
      - assert (E2 : 2 ^ (k - 31) = 2 * 2 ^ (k - 32)).
        { rewrite <- Z.pow_succ_r by lia. f_equal. lia. }
        replace (2 ^ k + 2 ^ 31) with (2 ^ 31 + 2 ^ (k - 32) * 2 ^ 32) by lia.
        rewrite Z.mod_add by lia. rewrite Z.mod_small by lia. lia. }
    lia. }
  assert (B : 2 ^ k <= 2 ^ 30) by (apply Z.pow_le_mono_r; lia).
  rewrite IntFacts.i32_small in * by lia.
  exists k. repeat split; try lia.
Qed.

(** C8. In a sequential run of the vertex pass from the fresh state of the
    driver (table of capacity [C], vertex buffer of [7 * C] entries, counter
    0) over the codes [0 .. n-1], for any [n] up to [2^64] (so at every
    point of the pass over [0, maxMorton]): no write leaves the vertex
    buffer, no probing loop runs away, and the vertex counter is at most
    [7 * C]. *)
Theorem C8_vertex_counter_within_buffer
  (sdf : vec3 -> F32.float) (origin : vec3) (gridSize : ivec3)
  (spacing : vec3) (level : F32.float) (fuel : nat) (tableSize n : Z) :
  let s0 := fresh_VertState tableSize in
  let C := HT.Size (gridVerts s0) in
  1 <= C ->
  7 * C <= Int.INT_MAX ->
  C <= Z.of_nat fuel ->
  0 <= n <= 2 ^ 64 ->
  Z.of_nat (length (vertPos s0)) = 7 * C /\
  exists s,
    for_each_n n (ComputeVerts_op sdf origin gridSize spacing level fuel) s0
      = (s, Ok tt) /\
    0 <= vertIndex s <= 7 * C /\
    Z.of_nat (length (vertPos s)) = 7 * C /\
    HT.Size (gridVerts s) = C.
Proof.
  intros s0 C Hpos Hbuf Hfuel Hn.
  destruct (create_table (Int.u32 tableSize) 127 Hpos)
    as (k & Hk & Et & Es & Eu & Ec).
  assert (EC : C = 2 ^ k) by exact Ec.
  assert (L0 : Z.of_nat (length (vertPos s0)) = 7 * C).
  { unfold s0, fresh_VertState. cbn [vertPos]. rewrite repeat_length.
    fold s0. change (HT.Size (HT.create (Int.u32 tableSize) 127)) with C.
    unfold Int.INT_MAX in Hbuf. rewrite IntFacts.i32_small by lia. lia. }
  split; [exact L0|].
  assert (I0 : pass_inv k 127 0 s0).
  { split.
    - exact EC.
    - exact Es.
    - rewrite L0, EC. reflexivity.
    - unfold s0, fresh_VertState. cbn [gridVerts]. rewrite Et, Eu, occupied_repeat. lia.
    - unfold s0, fresh_VertState. cbn [gridVerts]. rewrite Eu. lia.
    - unfold s0, fresh_VertState. cbn [gridVerts vertIndex]. rewrite Eu. lia.
    - unfold s0, fresh_VertState. cbn [gridVerts]. rewrite Et.
      intros g G. apply repeat_spec in G. subst g. left. reflexivity. }
  destruct (pass_preserves sdf origin gridSize spacing level fuel k 127
              Hk ltac:(lia) (gcd_127_pow2 k ltac:(lia))
              ltac:(rewrite <- EC; exact Hbuf) ltac:(rewrite <- EC; exact Hfuel)
              (Z.to_nat n) 0 s0 ltac:(lia) ltac:(lia) I0)
    as (s & E & [Hs Ht Hb Ho Hu Hi Hkeys]).
  exists s. split; [exact E|].
  rewrite <- EC in *. repeat split; try lia.
Qed.

Definition C8_sdf (p : vec3) : F32.float :=
  if F32.ltb (fx p) (F32.of_int 1) then F32.of_int 1 else F32.of_int (-1).

(** A pass over the 64 codes of a small grid with a table of 64 slots. *)
Lemma C8_vertex_counter_within_buffer_witness :
  Z.of_nat (length (vertPos (fresh_VertState 64))) = 7 * 64 /\
  exists s,
    for_each_n 64
      (ComputeVerts_op C8_sdf (Vec3 F32.zero F32.zero F32.zero) (IVec3 3 3 3)
         (Vec3 (F32.of_int 1) (F32.of_int 1) (F32.of_int 1)) F32.zero 64%nat)
      (fresh_VertState 64) = (s, Ok tt) /\
    0 <= vertIndex s <= 7 * 64 /\
    Z.of_nat (length (vertPos s)) = 7 * 64 /\
    HT.Size (gridVerts s) = 64.
Proof.
  apply (C8_vertex_counter_within_buffer C8_sdf (Vec3 F32.zero F32.zero F32.zero)
           (IVec3 3 3 3) (Vec3 (F32.of_int 1) (F32.of_int 1) (F32.of_int 1))
           F32.zero 64%nat 64 64).
  - vm_compute. discriminate.
  - vm_compute. discriminate.
  - vm_compute. discriminate.
  - lia.
Defined.

(** ** Triangle pass: arguments of [MortonCode] *)

Definition nonneg4 (v : ivec4) : Prop :=
  0 <= x4 v /\ 0 <= y4 v /\ 0 <= z4 v /\ 0 <= w4 v.

(** A computation that only adds non-negative indices to the log. *)
Definition safe {A} (m : M TriState A) : Prop :=
  forall s, Forall nonneg4 (calls s) -> Forall nonneg4 (calls (fst (m s))).

Lemma safe_ret {A} (a : A) : safe (ret a).
Proof. intros s H. exact H. Qed.

Lemma safe_pure_result {A} (r : result A) : safe (pure_result r).
Proof. intros s H. exact H. Qed.

Lemma safe_bind {A B} (m : M TriState A) (f : A -> M TriState B) :
  safe m -> (forall a, safe (f a)) -> safe (bind m f).
Proof.
  intros Hm Hf s H. unfold bind. specialize (Hm s H).
  destruct (m s) as [s' [a|e]]; simpl in *; [apply Hf; exact Hm|exact Hm].
Qed.

Lemma safe_call index : nonneg4 index -> safe (call_MortonCode index).
Proof. intros N s H. simpl. constructor; assumption. Qed.

Lemma safe_lookup_at table fuel index :
  nonneg4 index -> safe (lookup_at table fuel index).
Proof.
  intros N. unfold lookup_at. apply safe_bind; [now apply safe_call|].
  intros c. apply safe_pure_result.
Qed.

Lemma safe_CreateTri tri edges : safe (CreateTri tri edges).
Proof.
  unfold CreateTri. destruct (get3 tri 0 <? 0); [apply safe_ret|].
  intros s H. unfold bind, AtomicAdd_triIndex, write_triVerts. simpl.
  destruct (buf_write _ _ _); exact H.
Qed.

Lemma safe_CreateTris tet edges : safe (CreateTris tet edges).
Proof.
  unfold CreateTris. apply safe_bind; [apply safe_CreateTri|].
  intros _. apply safe_CreateTri.
Qed.

Lemma DecodeMorton_range code :
  0 <= x4 (DecodeMorton code) < 2 ^ 21 /\
  0 <= y4 (DecodeMorton code) < 2 ^ 21 /\
  0 <= z4 (DecodeMorton code) < 2 ^ 21 /\
  0 <= w4 (DecodeMorton code) <= 1.
Proof.
  unfold DecodeMorton. simpl.
  pose proof (SqueezeBits3_range (Int.shr64 code 1)).
  pose proof (SqueezeBits3_range (Int.shr64 code 2)).
  pose proof (SqueezeBits3_range (Int.shr64 code 3)).
  assert (W : 0 <= Z.land code 1 <= 1).
  { change 1 with (Z.ones 1) at 1 2. rewrite Z.land_ones by lia.
    pose proof (Z.mod_pos_bound code (2 ^ 1) ltac:(lia)). lia. }
  rewrite !IntFacts.i32_small by lia. lia.
Qed.

Lemma Prev3_cases i : Prev3 i = 0 \/ Prev3 i = 1 \/ Prev3 i = 2.
Proof. unfold Prev3, get3. simpl. destruct i as [|[]|]; auto. Qed.

Lemma Next3_cases i : Next3 i = 0 \/ Next3 i = 1 \/ Next3 i = 2.
Proof. unfold Next3, get3. simpl. destruct i as [|[]|]; auto. Qed.

Section Guard.
Variable table : HashTableD.
Variable fuel : nat.

(** The guard of the first lookup of an iteration. *)
Lemma guarded_lookup_negative leadIndex i s :
  get4 (dec_index leadIndex i) (Prev3 i) < 0 ->
  guarded_lookup table fuel leadIndex i s = (s, Ok GridVert_default).
Proof.
  intros H. unfold guarded_lookup. apply Z.ltb_lt in H. now rewrite H.
Qed.

Lemma safe_guarded_lookup leadIndex i :
  nonneg4 leadIndex -> safe (guarded_lookup table fuel leadIndex i).
Proof.
  intros (Hx & Hy & Hz & Hw). unfold guarded_lookup.
  destruct (get4 (dec_index leadIndex i) (Prev3 i) <? 0) eqn:G;
    [apply safe_ret|].
  apply Z.ltb_ge in G. apply safe_lookup_at.
  unfold dec_index in *. destruct leadIndex as [x y z w]. simpl in *.
  destruct (Prev3_cases i) as [E|[E|E]]; rewrite E in *; simpl in *;
    unfold nonneg4; simpl; lia.
Qed.

Lemma safe_tet_step base baseIndex leadIndex i loc :
  nonneg4 leadIndex ->
  0 <= x4 baseIndex < 2 ^ 21 -> 0 <= y4 baseIndex < 2 ^ 21 ->
  0 <= z4 baseIndex < 2 ^ 21 -> 0 <= w4 baseIndex ->
  safe (tet_step table fuel base baseIndex leadIndex i loc).
Proof.
  intros L Bx By Bz Bw. unfold tet_step. destruct loc as [tet thisVert].
  apply safe_bind; [now apply safe_guarded_lookup|]. intros nextVert.
  cbv zeta.
  apply safe_bind; [apply safe_CreateTris|]. intros _.
  apply safe_bind.
  - apply safe_lookup_at. destruct baseIndex as [x y z w]. simpl in *.
    destruct (Next3_cases i) as [E|[E|E]]; rewrite E; simpl;
      unfold nonneg4; simpl; rewrite IntFacts.i32_small by lia; lia.
  - intros nextVert2.
    apply safe_bind; [apply safe_CreateTris|]. intros _. apply safe_ret.
Qed.

Lemma safe_tet_loop base baseIndex leadIndex l : forall loc,
  nonneg4 leadIndex ->
  0 <= x4 baseIndex < 2 ^ 21 -> 0 <= y4 baseIndex < 2 ^ 21 ->
  0 <= z4 baseIndex < 2 ^ 21 -> 0 <= w4 baseIndex ->
  safe (tet_loop table fuel base baseIndex leadIndex l loc).
Proof.
  induction l as [|i l IH]; intros loc L Bx By Bz Bw; simpl.
  - apply safe_ret.
  - apply safe_bind; [now apply safe_tet_step|].
    intros loc'. now apply IH.
Qed.

Lemma lead_index_nonneg baseIndex :
  0 <= x4 baseIndex < 2 ^ 21 -> 0 <= y4 baseIndex < 2 ^ 21 ->
  0 <= z4 baseIndex < 2 ^ 21 -> 0 <= w4 baseIndex <= 1 ->
  nonneg4 (lead_index baseIndex).
Proof.
  intros Bx By Bz Bw. unfold lead_index, nonneg4.
  destruct baseIndex as [x y z w]. simpl in *.
  destruct (w =? 0); simpl; rewrite ?IntFacts.i32_small by lia; lia.
Qed.

Lemma safe_BuildTris_op idx : safe (BuildTris_op table fuel idx).
Proof.
  unfold BuildTris_op. apply safe_bind; [apply safe_pure_result|].
  intros base. destruct (key base =? kOpen); [apply safe_ret|].
  cbv zeta.
  destruct (DecodeMorton_range (key base)) as (Bx & By & Bz & Bw).
  apply safe_bind.
  - apply safe_lookup_at. unfold nonneg4.
    destruct (DecodeMorton (key base)) as [x y z w]. simpl in *.
    rewrite IntFacts.i32_small by lia. lia.
  - intros thisVert. apply safe_tet_loop; try assumption; try lia.
    now apply lead_index_nonneg.
Qed.

Lemma safe_for_each l : safe (for_each l (BuildTris_op table fuel)).
Proof.
  induction l as [|i l IH]; simpl; [apply safe_ret|].
  apply safe_bind; [apply safe_BuildTris_op|]. intros _. exact IH.
Qed.
End Guard.

(** C9. In the triangle pass, when the decrement of coordinate [Prev3(i)] of
    [leadIndex] gives a negative component, the default [GridVert] is used
    and neither [MortonCode] nor the table is consulted; and every index
    [MortonCode] is invoked with, by one invocation of
    [BuildTris::operator()] or by the whole pass over the slots, has
    non-negative coordinates. *)
Theorem C9_triangle_pass_MortonCode_nonneg (table : HashTableD) (fuel : nat) :
  (forall leadIndex i s,
     get4 (dec_index leadIndex i) (Prev3 i) < 0 ->
     guarded_lookup table fuel leadIndex i s = (s, Ok GridVert_default)) /\
  (forall idx s,
     Forall nonneg4 (calls s) ->
     Forall nonneg4 (calls (fst (BuildTris_op table fuel idx s)))) /\
  Forall nonneg4
    (calls (fst (triangle_pass fuel table (fresh_TriState table)))).
Proof.
  split; [|split].
  - intros leadIndex i s. apply guarded_lookup_negative.
  - intros idx. apply safe_BuildTris_op.
  - unfold triangle_pass, for_each_n. apply safe_for_each. constructor.
Qed.

(** The base vertex (0,0,0,0) has the body-diagonal partner (0,0,0,1); at
    [i = 0] the decrement of its [z] gives -1 and the default record is
    used, whatever the table holds. *)
Lemma C9_triangle_pass_MortonCode_nonneg_witness :
  get4 (dec_index (lead_index (IVec4 0 0 0 0)) 0) (Prev3 0) < 0 /\
  guarded_lookup (HT.create 4 127) 4 (lead_index (IVec4 0 0 0 0)) 0
                 (fresh_TriState (HT.create 4 127))
    = (fresh_TriState (HT.create 4 127), Ok GridVert_default).
Proof.
  assert (H : get4 (dec_index (lead_index (IVec4 0 0 0 0)) 0) (Prev3 0) < 0)
    by reflexivity.
  split; [exact H|].
  exact (proj1 (C9_triangle_pass_MortonCode_nonneg (HT.create 4 127) 4)
           (lead_index (IVec4 0 0 0 0)) 0 (fresh_TriState (HT.create 4 127)) H).
Defined.

(** ** Driver: manifoldness of the returned mesh *)

(** [{a, b}] is one of the three edges of the triangle [t]. *)
Definition has_edge (a b : Z) (t : ivec3) : bool :=
  let e p q := ((p =? a) && (q =? b)) || ((p =? b) && (q =? a)) in
  e (x3 t) (y3 t) || e (y3 t) (z3 t) || e (z3 t) (x3 t).

(** Number of triangles sharing the edge [{a, b}]. *)
Definition edge_uses (tris : list ivec3) (a b : Z) : nat :=
  length (filter (has_edge a b) tris).

(** Every edge of every triangle is shared by exactly two triangles. *)
Definition edges_shared_by_two (tris : list ivec3) : bool :=
  forallb (fun t =>
             Nat.eqb (edge_uses tris (x3 t) (y3 t)) 2 &&
             Nat.eqb (edge_uses tris (y3 t) (z3 t)) 2 &&
             Nat.eqb (edge_uses tris (z3 t) (x3 t)) 2) tris.

(** Every triangle refers to three positions of the vertex array. *)
Definition indices_valid (m : Mesh) : bool :=
  let n := Z.of_nat (length (mesh_vertPos m)) in
  forallb (fun t =>
             (0 <=? x3 t) && (x3 t <? n) && (0 <=? y3 t) && (y3 t <? n) &&
             (0 <=? z3 t) && (z3 t <? n)) (mesh_triVerts m).

(** On an ordinary input the driver behaves as documented: the unit sphere
    [sdf(p) = 1 - |p|^2] in the box [-1.25, 1.25]^3 at edge length 1/2 gives
    278 vertices and 552 triangles, every index is valid and every edge is
    shared by exactly two triangles. *)
Definition sphere_sdf (p : vec3) : F32.float :=
  F32.sub (fl 1 0)
          (F32.add (F32.add (F32.mul (fx p) (fx p)) (F32.mul (fy p) (fy p)))
                   (F32.mul (fz p) (fz p))).

Example LevelSet_sphere_edges_shared_by_two :
  exists m,
    LevelSet sphere_sdf (v3 (F32.div (F32.of_int (-5)) (F32.of_int 4)))
             (v3 (fl 5 (-1))) (fl 1 (-1)) F32.zero (fun _ => 2048) 1024 = Ok m /\
    length (mesh_vertPos m) = 278%nat /\
    length (mesh_triVerts m) = 552%nat /\
    indices_valid m = true /\
    edges_shared_by_two (mesh_triVerts m) = true.
Proof.
  eexists. split; [vm_compute; reflexivity|].
  repeat split; vm_compute; reflexivity.
Qed.

(** A ball of radius 1/2 around the point (1,1,1):
    [sdf(p) = 1/4 - |p - (1,1,1)|^2]. *)
Definition C1_sdf (p : vec3) : F32.float :=
  let dx := F32.sub (fx p) (fl 1 0) in
  let dy := F32.sub (fy p) (fl 1 0) in
  let dz := F32.sub (fz p) (fl 1 0) in
  F32.sub (fl 1 (-2))
          (F32.add (F32.add (F32.mul dx dx) (F32.mul dy dy)) (F32.mul dz dz)).

(** The box [0, 2^21]^3 meshed at edge length 1 and level 0. *)
Definition C1_dim : vec3 := v3 (fl 1 21).

Definition C1_run : result Mesh :=
  LevelSet C1_sdf (v3 F32.zero) C1_dim (fl 1 0) F32.zero (fun _ => 60) 64.

(** C1 fails on the code for a grid of extent 2^21: [gridSize + 1] does not
    fit the 21 bits [SpreadBits3] keeps, [maxMorton] comes out as 15, and
    the vertex pass visits 16 grid vertices only.  The returned mesh has 11
    vertices and 18 triangles; twelve triangles refer to the vertex index -1,
    and the edge {0, -1} is shared by four triangles. *)
Theorem C1_extent_2p21_not_manifold :
  LevelSet_gridSize C1_dim (fl 1 0) = Some (IVec3 (2 ^ 21) (2 ^ 21) (2 ^ 21)) /\
  LevelSet_maxMorton (IVec3 (2 ^ 21) (2 ^ 21) (2 ^ 21)) = 15 /\
  exists m,
    C1_run = Ok m /\
    length (mesh_vertPos m) = 11%nat /\
    length (mesh_triVerts m) = 18%nat /\
    length (filter (fun t => (x3 t <? 0) || (y3 t <? 0) || (z3 t <? 0))
                   (mesh_triVerts m)) = 12%nat /\
    In (IVec3 (-1) 10 0) (mesh_triVerts m) /\
    edge_uses (mesh_triVerts m) 0 (-1) = 4%nat /\
    indices_valid m = false /\
    edges_shared_by_two (mesh_triVerts m) = false.
Proof.
  split; [reflexivity|]. split; [reflexivity|].
  eexists. split; [vm_compute; reflexivity|].
  repeat split; try reflexivity.
  simpl. auto.
Qed.
